(** * The unreliable todo-list API server (api_server.py)

    A shallow embedding of the in-memory item store, of the failure-injecting
    decorator and of the four route handlers, followed by the properties the
    specification states about them. *)

From Stdlib Require Import ZArith Floats.
From stdpp Require Import base list strings pretty.

Local Open Scope Z_scope.

(** ** Python values

    The values that reach the store: what [json.loads] can produce, plus the
    integers the store itself allocates. *)

#[warnings="-register-all"]
Inductive value : Type :=
| VNone
| VBool (b : bool)
| VInt (n : Z)
| VFloat (f : float)
| VStr (s : string)
| VList (l : list value)
| VDict (d : list (string * value)).

(** ** Python dictionaries

    A [dict] keeps its entries in insertion order and holds a key at most
    once: it is an association list whose keys are pairwise distinct
    ([wf]).  Assigning to a key that is present replaces the value in place,
    assigning to an absent key appends an entry. *)

Module PyDict.
Section dict.
Context {K V : Type} `{EqDecision K}.

Definition keys (d : list (K * V)) : list K := d.*1.
Definition values (d : list (K * V)) : list V := d.*2.

(** [d[k]], with [None] standing for [KeyError]. *)
Fixpoint get (k : K) (d : list (K * V)) : option V :=
  match d with
  | [] => None
  | (k', v) :: d' => if decide (k = k') then Some v else get k d'
  end.

(** [k in d] *)
Definition contains (k : K) (d : list (K * V)) : bool :=
  match get k d with Some _ => true | None => false end.

(** [d[k] = v] *)
Fixpoint set (k : K) (v : V) (d : list (K * V)) : list (K * V) :=
  match d with
  | [] => [(k, v)]
  | (k', v') :: d' =>
      if decide (k = k') then (k, v) :: d' else (k', v') :: set k v d'
  end.

(** [del d[k]], with [None] standing for [KeyError]. *)
Fixpoint remove (k : K) (d : list (K * V)) : option (list (K * V)) :=
  match d with
  | [] => None
  | (k', v) :: d' =>
      if decide (k = k') then Some d'
      else match remove k d' with
           | Some d'' => Some ((k', v) :: d'')
           | None => None
           end
  end.

(** [d.update(e)]: the entries of [e] are assigned in order. *)
Fixpoint update (d e : list (K * V)) : list (K * V) :=
  match e with
  | [] => d
  | (k, v) :: e' => update (set k v d) e'
  end.

Definition wf (d : list (K * V)) : Prop := NoDup (keys d).
End dict.
End PyDict.

(** A record of the store: a dictionary from field names to values. *)
Definition info : Type := list (string * value).

(** ** Exceptions and the monad of the store operations *)

Inductive exn : Type :=
| KeyError
| AssertionError
| RuntimeError          (* 'Unreliable API Strikes Again!' *)
| AttributeError
| TypeError
| StopIteration
| JSONDecodeError
| HTTPException (code : Z).   (* flask.abort(code) *)

Inductive result (A : Type) : Type :=
| Ok (a : A)
| Raise (e : exn).
Arguments Ok {A} a.
Arguments Raise {A} e.

(** The in-memory data store.  The two [RLock]s are left out of the
    sequential state: a single thread finds them free and leaves them free;
    they are part of the state of the concurrent model below. *)
Record ItemStore : Type := mkItemStore {
  items : list (Z * info);
  current_id : Z
}.

(** An operation runs on the store and returns or raises; the store it
    leaves behind is kept in both cases. *)
Definition M (A : Type) : Type := ItemStore -> result A * ItemStore.

Definition ret {A} (a : A) : M A := fun s => (Ok a, s).
Definition raise {A} (e : exn) : M A := fun s => (Raise e, s).
Definition bind {A B} (c : M A) (k : A -> M B) : M B :=
  fun s => match c s with
           | (Ok a, s') => k a s'
           | (Raise e, s') => (Raise e, s')
           end.
(** [try c except KeyError: h] *)
Definition except_KeyError {A} (c : M A) (h : M A) : M A :=
  fun s => match c s with
           | (Raise KeyError, s') => h s'
           | r => r
           end.

Notation "x <- c ;; k" := (bind c (fun x => k))
  (at level 100, c at next level, right associativity).
Notation "c ;; k" := (bind c (fun _ => k))
  (at level 100, right associativity).

Definition get_state : M ItemStore := fun s => (Ok s, s).
Definition put_items (d : list (Z * info)) : M unit :=
  fun s => (Ok tt, mkItemStore d (current_id s)).
Definition put_current_id (n : Z) : M unit :=
  fun s => (Ok tt, mkItemStore (items s) n).
Definition assert (b : bool) : M unit :=
  if b then ret tt else raise AssertionError.
Definition lift_KeyError {A} (o : option A) : M A :=
  match o with Some a => ret a | None => raise KeyError end.

(** ** class ItemStore *)

(** [ItemStore()] *)
Definition new_store : ItemStore := mkItemStore [] 0.

Definition new_id : M Z :=
  s <- get_state ;;
  put_current_id (current_id s + 1) ;;
  s' <- get_state ;;
  ret (current_id s').

Definition add_item (kwargs : info) : M info :=
  item_id <- new_id ;;
  let info := PyDict.update [("id"%string, VInt item_id)] kwargs in
  s <- get_state ;;
  assert (negb (PyDict.contains item_id (items s))) ;;
  put_items (PyDict.set item_id info (items s)) ;;
  ret info.

Definition delete_item (item_id : Z) : M unit :=
  s <- get_state ;;
  d <- lift_KeyError (PyDict.remove item_id (items s)) ;;
  put_items d.

Definition find_item (item_id : Z) : M info :=
  s <- get_state ;;
  lift_KeyError (PyDict.get item_id (items s)).

(** One step of the comprehension of [all_items]:
    [{'id': item['id'], 'summary': item['summary']}]. *)
Definition project (item : info) : option info :=
  match PyDict.get "id"%string item with
  | Some i =>
      match PyDict.get "summary"%string item with
      | Some sm => Some [("id"%string, i); ("summary"%string, sm)]
      | None => None
      end
  | None => None
  end.

Definition all_items : M (list info) :=
  s <- get_state ;;
  lift_KeyError (mapM project (PyDict.values (items s))).

(** ** Python floats

    A [float] is a binary64 number.  Every finite one is a whole multiple of
    2^-1074, so the real number it denotes is given exactly by an integer
    count of such units; the infinities and NaN denote none. *)

Definition SFunits (x : spec_float) : option Z :=
  match x with
  | S754_zero _ => Some 0
  | S754_finite s m e => Some (cond_Zopp s (Z.pos m * 2 ^ (e + 1074)))
  | S754_infinity _ | S754_nan => None
  end.

Definition units (f : float) : option Z := SFunits (Prim2SF f).

(** The number 1, in units. *)
Definition unit_one : Z := 2 ^ 1074.

(** [f] denotes a real number of the interval [[0, 1]]. *)
Definition in_unit_interval (f : float) : Prop :=
  exists a, units f = Some a /\ 0 <= a <= unit_one.

(** ** class ServerApp and the command line *)

(** The application object.  [failure_rate] is an attribute that exists only
    once it has been assigned. *)
Record ServerApp : Type := mkServerApp {
  _failure_rate : option float;
  debug : bool
}.

(** [app = ServerApp(__name__)] *)
Definition app : ServerApp := mkServerApp None false.

#[warnings="-inexact-float"]
Definition DEFAULT_FAILURE_RATE : float := 0.01%float.

(** The command line as [argparse] hands it over: each option with the
    value given for it, if any. *)
Record argv : Type := mkArgv {
  opt_port : option Z;
  opt_failure_rate : option float;
  opt_debug : bool
}.

Record args : Type := mkArgs {
  args_port : Z;
  args_failure_rate : float;
  args_debug : bool
}.

Definition get_args (a : argv) : result args :=
  let args := mkArgs (default 8042 (opt_port a))
                     (default DEFAULT_FAILURE_RATE (opt_failure_rate a))
                     (opt_debug a) in
  if (PrimFloat.leb 0 (args_failure_rate args)
      && PrimFloat.leb (args_failure_rate args) 1)%bool
  then Ok args
  else Raise AssertionError.

(** The [__main__] block, up to the call [app.run(port=args.port)]: the
    application it starts and the port it listens on. *)
Definition main (a : argv) : result (ServerApp * Z) :=
  match get_args a with
  | Ok args =>
      let app1 := mkServerApp (Some (args_failure_rate args)) (debug app) in
      let app2 := if args_debug args
                  then mkServerApp (_failure_rate app1) true else app1 in
      Ok (app2, args_port args)
  | Raise e => Raise e
  end.

(** ** URL routing *)

(** [unreliable(func)]; [r] is the value [random.random()] returns in this
    call. *)
Definition unreliable {A} (app : ServerApp) (r : float) (func : M A) : M A :=
  match _failure_rate app with
  | None => raise AttributeError
  | Some failure_rate =>
      if PrimFloat.ltb r failure_rate then raise RuntimeError else func
  end.

Inductive response : Type :=
| JsonResponse (body : value)      (* content type application/json *)
| TextResponse (body : string).

(** A key of the posted form, seen through [json.loads]: the document it
    holds, or nothing when the text is not JSON. *)
Definition form_key : Type := option value.

Definition json_loads (data : form_key) : M value :=
  match data with Some v => ret v | None => raise JSONDecodeError end.

(** [next(it)] on the keys of the form. *)
Definition next {A} (it : list A) : M A :=
  match it with x :: _ => ret x | [] => raise StopIteration end.

(** [params[key]] for a string [key]: only a dictionary can be indexed so. *)
Definition getitem (params : value) (key : string) : M value :=
  match params with
  | VDict d => lift_KeyError (PyDict.get key d)
  | _ => raise TypeError
  end.

(** [flask.abort(code)] *)
Definition abort {A} (code : Z) : M A := raise (HTTPException code).

Module Routes.

Definition list_items (app : ServerApp) (r : float) : M response :=
  unreliable app r (
    l <- all_items ;;
    ret (JsonResponse (VList (VDict <$> l)))).

Definition create_item (app : ServerApp) (r : float)
    (form : list form_key) : M response :=
  unreliable app r (
    data <- next form ;;
    params <- json_loads data ;;
    summary <- getitem params "summary" ;;
    description <- getitem params "description" ;;
    item <- add_item [("summary"%string, summary);
                      ("description"%string, description)] ;;
    ret (JsonResponse (VDict item))).

Definition describe_item (app : ServerApp) (r : float)
    (item_id : Z) : M response :=
  unreliable app r (
    except_KeyError
      (item <- find_item item_id ;; ret (JsonResponse (VDict item)))
      (abort 404)).

Definition delete_item (app : ServerApp) (r : float)
    (item_id : Z) : M response :=
  unreliable app r (
    except_KeyError (delete_item item_id) (abort 404) ;;
    ret (TextResponse ("delete " +:+ pretty item_id))).

End Routes.

(** The status line of the answer to a request.  This is the dispatch of
    Flask, which the handlers rely on: a returned response is sent with
    status 200, [abort(code)] is answered with [code], and any other
    exception that leaves a handler is answered with 500. *)
Definition status_code (r : result response) : Z :=
  match r with
  | Ok _ => 200
  | Raise (HTTPException code) => code
  | Raise _ => 500
  end.

(** ** Sequences of calls on the store *)

Inductive call : Type :=
| AddItem (kwargs : info)
| DeleteItem (item_id : Z)
| FindItem (item_id : Z)
| AllItems.

(** The store a call leaves behind, whether it returns or raises. *)
Definition exec (c : call) (s : ItemStore) : ItemStore :=
  match c with
  | AddItem kwargs => (add_item kwargs s).2
  | DeleteItem item_id => (delete_item item_id s).2
  | FindItem item_id => (find_item item_id s).2
  | AllItems => (all_items s).2
  end.

Definition run (cs : list call) (s : ItemStore) : ItemStore :=
  foldl (fun s c => exec c s) s cs.

(** The states a store goes through in the life of the process. *)
Definition reachable (s : ItemStore) : Prop :=
  exists cs, s = run cs new_store.

(** The fields the specification gives to an item at creation. *)
Definition spec_fields (summary description : value) : info :=
  [("summary"%string, summary); ("description"%string, description)].

Definition spec_call (c : call) : Prop :=
  match c with
  | AddItem kwargs => exists summary description,
      kwargs = spec_fields summary description
  | _ => True
  end.

(** A call of [add_item] gives the record a summary and leaves the [id] to
    the store. *)
Definition listable_call (c : call) : Prop :=
  match c with
  | AddItem kwargs =>
      ("id"%string ∉ PyDict.keys kwargs) /\
      is_Some (PyDict.get "summary"%string kwargs)
  | _ => True
  end.

(** [n] successive calls of [add_item], one for each element of [kws]. *)
Fixpoint add_items (kws : list info) : M (list info) :=
  match kws with
  | [] => ret []
  | kwargs :: kws' =>
      item <- add_item kwargs ;;
      rest <- add_items kws' ;;
      ret (item :: rest)
  end.

(** The [id] field of a record. *)
Definition id_of (item : info) : option value := PyDict.get "id"%string item.

(** Every issued key lies between 1 and the counter, and no key is held
    twice. *)
Definition bounded (s : ItemStore) : Prop :=
  PyDict.wf (items s) /\
  0 <= current_id s /\
  Forall (fun k => 1 <= k <= current_id s) (PyDict.keys (items s)).

(** Every record is stored under the key its [id] field names. *)
Definition ids_match_keys (s : ItemStore) : Prop :=
  id_of <$> PyDict.values (items s) = (Some ∘ VInt) <$> PyDict.keys (items s).

Definition store_ok (s : ItemStore) : Prop :=
  PyDict.wf (items s) /\
  ids_match_keys s /\
  NoDup (id_of <$> PyDict.values (items s)).

(** A record of the list view next to the stored record it comes from. *)
Definition entry_of (k : Z) (item entry : info) : Prop :=
  PyDict.keys entry = ["id"%string; "summary"%string] /\
  id_of entry = Some (VInt k) /\
  PyDict.get "summary"%string entry = PyDict.get "summary"%string item /\
  PyDict.get "description"%string entry = None.

(** [all_items] returns one entry for each stored record and nothing else:
    the ids listed are the keys of the store. *)
Definition all_items_exact (s : ItemStore) : Prop :=
  exists l, all_items s = (Ok l, s) /\
    id_of <$> l = (Some ∘ VInt) <$> PyDict.keys (items s) /\
    Forall2 (fun kv entry => entry_of kv.1 kv.2 entry) (items s) l.

(** The records that successive calls of [add_item] build when the counter
    stands at [c]. *)
Fixpoint records_from (c : Z) (kws : list info) : list info :=
  match kws with
  | [] => []
  | kwargs :: kws' =>
      PyDict.update [("id"%string, VInt (c + 1))] kwargs
        :: records_from (c + 1) kws'
  end.

(** A stored record that names its own key and has a summary. *)
Definition record_ok (kv : Z * info) : Prop :=
  id_of kv.2 = Some (VInt kv.1) /\ is_Some (PyDict.get "summary"%string kv.2).

Definition records_ok (s : ItemStore) : Prop :=
  PyDict.wf (items s) /\ Forall record_ok (items s).

(** The store after [add_item(id=99, summary='x')] on a fresh store. *)
Definition store_with_foreign_id : ItemStore :=
  exec (AddItem [("id"%string, VInt 99); ("summary"%string, VStr "x")])
       new_store.

(** The store after [add_item(description='no title')] on a fresh store. *)
Definition store_without_summary : ItemStore :=
  exec (AddItem [("description"%string, VStr "no title")]) new_store.




(** An application that never injects a failure. *)
Definition reliable_app : ServerApp := mkServerApp (Some 0%float) false.

(** ** Threads

    The store under several request threads.  A thread runs its calls one
    after the other; a step of a thread is one access to the shared store or
    to a lock, together with the local computation that follows it.  The
    threads are interleaved by a schedule, step by step.

    The comprehension of [all_items] walks the dictionary through the
    iterator of the interpreter.  What this iterator yields, and whether it
    raises [RuntimeError], once other threads insert or delete between two
    of its steps depends on the layout of the interpreter's hash table,
    which the program does not fix.  The model keeps of [all_items] what the
    program fixes: it takes no lock and it writes nothing.  Its reads are
    one step, whatever their number, and its outcome under interleaving is
    not represented: the call leaves no entry among the results of its
    thread.  The list it returns when no other thread runs is that of the
    sequential [all_items] above. *)

Module Concurrent.

(** [threading.RLock]: free, or held by a thread a number of times. *)
Definition RLock : Type := option (nat * nat).

(** [l.acquire()] by thread [t]; [None] when the thread has to wait. *)
Definition acquire (t : nat) (l : RLock) : option RLock :=
  match l with
  | None => Some (Some (t, 1%nat))
  | Some (owner, n) =>
      if decide (owner = t) then Some (Some (t, S n)) else None
  end.

(** [l.release()] by thread [t]; [None] when [t] does not hold the lock,
    which is a [RuntimeError]. *)
Definition release (t : nat) (l : RLock) : option RLock :=
  match l with
  | Some (owner, S n) =>
      if decide (owner = t)
      then Some (match n with O => None | S _ => Some (t, n) end)
      else None
  | _ => None
  end.

Definition holds (t : nat) (l : RLock) : Prop := exists n, l = Some (t, n).

(** What [add_item] and [find_item] (a record) and [delete_item] ([None])
    hand back to their thread. *)
Inductive answer : Type :=
| AItem (item : info)
| ANone.

(** Where a thread stands: the access it makes next, with its local
    variables. *)
Inductive pc : Type :=
| Idle
  (* new_id, on behalf of add_item *)
| NewIdAcquire (kwargs : info)            (* self.id_lock.acquire() *)
| NewIdLoad (kwargs : info)               (* self.current_id += 1: the load *)
| NewIdStore (kwargs : info) (n : Z)      (* self.current_id += 1: the store *)
| NewIdRead (kwargs : info)               (* _new_id = self.current_id *)
| NewIdRelease (kwargs : info) (_new_id : Z)   (* self.id_lock.release() *)
  (* add_item, after new_id has returned *)
| AddAcquire (item_id : Z) (item : info)  (* self.write_lock.acquire() *)
| AddAssert (item_id : Z) (item : info)   (* assert item_id not in self.items *)
| AddInsert (item_id : Z) (item : info)   (* self.items[item_id] = info *)
| AddRelease (r : result info)            (* finally: self.write_lock.release() *)
  (* delete_item, find_item *)
| Delete (item_id : Z)                    (* del self.items[item_id] *)
| Find (item_id : Z)                      (* self.items[item_id] *)
  (* all_items *)
| Listing.                                (* the reads of the comprehension *)

(** A thread: where it stands, the calls it has still to make, and what
    its calls of [add_item], [delete_item] and [find_item] have returned or
    raised so far. *)
Record thread : Type := mkThread {
  at_pc : pc;
  todo : list call;
  results : list (result answer)
}.

Record config : Type := mkConfig {
  store : ItemStore;
  id_lock : RLock;
  write_lock : RLock;
  threads : list thread
}.

(** The first access of a call. *)
Definition entry (c : call) : pc :=
  match c with
  | AddItem kwargs => NewIdAcquire kwargs
  | DeleteItem item_id => Delete item_id
  | FindItem item_id => Find item_id
  | AllItems => Listing
  end.

Definition goto (p : pc) (th : thread) : thread :=
  mkThread p (todo th) (results th).

(** The call returns or raises. *)
Definition finish (r : result answer) (th : thread) : thread :=
  mkThread Idle (todo th) (results th ++ [r]).

Definition answer_item (r : result info) : result answer :=
  match r with Ok item => Ok (AItem item) | Raise e => Raise e end.

(** One step of the thread [t], which is [th], in the configuration [c]:
    the shared state and the thread afterwards, or [None] when the thread
    waits for a lock or has nothing left to do. *)
Definition step_thread (t : nat) (c : config) (th : thread)
    : option (ItemStore * RLock * RLock * thread) :=
  let s := store c in
  match at_pc th with
  | Idle =>
      match todo th with
      | [] => None
      | cl :: rest =>
          Some (s, id_lock c, write_lock c,
                mkThread (entry cl) rest (results th))
      end
  | NewIdAcquire kwargs =>
      match acquire t (id_lock c) with
      | Some l => Some (s, l, write_lock c, goto (NewIdLoad kwargs) th)
      | None => None
      end
  | NewIdLoad kwargs =>
      Some (s, id_lock c, write_lock c,
            goto (NewIdStore kwargs (current_id s)) th)
  | NewIdStore kwargs n =>
      Some (mkItemStore (items s) (n + 1), id_lock c, write_lock c,
            goto (NewIdRead kwargs) th)
  | NewIdRead kwargs =>
      Some (s, id_lock c, write_lock c,
            goto (NewIdRelease kwargs (current_id s)) th)
  | NewIdRelease kwargs item_id =>
      match release t (id_lock c) with
      | Some l =>
          Some (s, l, write_lock c,
                goto (AddAcquire item_id
                        (PyDict.update [("id"%string, VInt item_id)] kwargs))
                     th)
      | None => Some (s, id_lock c, write_lock c, finish (Raise RuntimeError) th)
      end
  | AddAcquire item_id item =>
      match acquire t (write_lock c) with
      | Some l => Some (s, id_lock c, l, goto (AddAssert item_id item) th)
      | None => None
      end
  | AddAssert item_id item =>
      if PyDict.contains item_id (items s)
      then Some (s, id_lock c, write_lock c,
                 goto (AddRelease (Raise AssertionError)) th)
      else Some (s, id_lock c, write_lock c, goto (AddInsert item_id item) th)
  | AddInsert item_id item =>
      Some (mkItemStore (PyDict.set item_id item (items s)) (current_id s),
            id_lock c, write_lock c, goto (AddRelease (Ok item)) th)
  | AddRelease r =>
      match release t (write_lock c) with
      | Some l => Some (s, id_lock c, l, finish (answer_item r) th)
      | None => Some (s, id_lock c, write_lock c, finish (Raise RuntimeError) th)
      end
  | Delete item_id =>
      match PyDict.remove item_id (items s) with
      | Some d =>
          Some (mkItemStore d (current_id s), id_lock c, write_lock c,
                finish (Ok ANone) th)
      | None => Some (s, id_lock c, write_lock c, finish (Raise KeyError) th)
      end
  | Find item_id =>
      match PyDict.get item_id (items s) with
      | Some item =>
          Some (s, id_lock c, write_lock c, finish (Ok (AItem item)) th)
      | None => Some (s, id_lock c, write_lock c, finish (Raise KeyError) th)
      end
  | Listing =>
      Some (s, id_lock c, write_lock c, goto Idle th)
  end.

(** The scheduler gives a step to thread [t]; nothing happens when this
    thread waits, has finished or does not exist. *)
Definition step (t : nat) (c : config) : config :=
  match threads c !! t with
  | Some th =>
      match step_thread t c th with
      | Some (s, il, wl, th') => mkConfig s il wl (<[t := th']> (threads c))
      | None => c
      end
  | None => c
  end.

Definition run_schedule (sched : list nat) (c : config) : config :=
  foldl (fun c t => step t c) c sched.

(** A fresh store and one thread for each list of calls. *)
Definition init (programs : list (list call)) : config :=
  mkConfig new_store None None
           ((fun calls => mkThread Idle calls []) <$> programs).

(** The thread is inside [new_id], between the acquisition and the release
    of the id lock. *)
Definition in_id_section (p : pc) : Prop :=
  match p with
  | NewIdLoad _ | NewIdStore _ _ | NewIdRead _ | NewIdRelease _ _ => True
  | _ => False
  end.

(** The thread is inside [add_item], between the acquisition and the
    release of the write lock. *)
Definition in_write_section (p : pc) : Prop :=
  match p with
  | AddAssert _ _ | AddInsert _ _ | AddRelease _ => True
  | _ => False
  end.

(** The next step of the thread reads or writes the item collection. *)
Definition touches_items (p : pc) : Prop :=
  match p with
  | AddAssert _ _ | AddInsert _ _ | Delete _ | Find _ | Listing => True
  | _ => False
  end.

(** Every access to the item collection is made under one of the locks. *)
Definition serialized (c : config) : Prop :=
  forall t th, threads c !! t = Some th ->
    touches_items (at_pc th) ->
    holds t (id_lock c) \/ holds t (write_lock c).

(** The accesses of [new_id] to the counter are made under the id lock, by
    one thread at a time, and those of [add_item] to the collection under
    the write lock, by one thread at a time. *)
Definition sections_locked (c : config) : Prop :=
  forall t th, threads c !! t = Some th ->
    (in_id_section (at_pc th) -> id_lock c = Some (t, 1%nat)) /\
    (in_write_section (at_pc th) -> write_lock c = Some (t, 1%nat)).

(** The record has an [id], and it is an integer. *)
Definition has_id (item : info) : Prop := exists k, id_of item = Some (VInt k).

(** The call has not raised [AssertionError], and every record it has
    handed back has an id. *)
Definition answer_ok (r : result answer) : Prop :=
  match r with
  | Ok (AItem item) => has_id item
  | Ok ANone => True
  | Raise e => e <> AssertionError
  end.

Definition answers_ok (c : config) : Prop :=
  forall t th, threads c !! t = Some th -> Forall answer_ok (results th).

(** The next step of the thread is a read of [find_item] or [all_items]. *)
Definition reading (p : pc) : Prop :=
  match p with
  | Find _ | Listing => True
  | _ => False
  end.

(** The id a thread has obtained from [new_id] for a record that is not
    yet in the collection. *)
Definition pending (p : pc) : option Z :=
  match p with
  | NewIdRelease _ item_id | AddAcquire item_id _
  | AddAssert item_id _ | AddInsert item_id _ => Some item_id
  | _ => None
  end.

(** The record a thread has built and not yet inserted. *)
Definition pending_item (p : pc) : option (Z * info) :=
  match p with
  | AddAcquire item_id item | AddAssert item_id item
  | AddInsert item_id item => Some (item_id, item)
  | _ => None
  end.

(** The keyword arguments of the call the thread is in. *)
Definition pending_kwargs (p : pc) : option info :=
  match p with
  | NewIdAcquire kwargs | NewIdLoad kwargs | NewIdStore kwargs _
  | NewIdRead kwargs | NewIdRelease kwargs _ => Some kwargs
  | _ => None
  end.

(** What a step of thread [t] does to the locks and to the section the
    thread is in. *)
Inductive lock_move (t : nat) (c : config) (th : thread)
    (il wl : RLock) (th' : thread) : Prop :=
| move_none :
    il = id_lock c -> wl = write_lock c ->
    (in_id_section (at_pc th') <-> in_id_section (at_pc th)) ->
    (in_write_section (at_pc th') <-> in_write_section (at_pc th)) ->
    lock_move t c th il wl th'
| move_enter_id :
    id_lock c = None -> il = Some (t, 1%nat) -> wl = write_lock c ->
    in_id_section (at_pc th') -> ~ in_write_section (at_pc th') ->
    ~ in_write_section (at_pc th) ->
    lock_move t c th il wl th'
| move_leave_id :
    id_lock c = Some (t, 1%nat) -> il = None -> wl = write_lock c ->
    ~ in_id_section (at_pc th') -> ~ in_write_section (at_pc th') ->
    ~ in_write_section (at_pc th) ->
    lock_move t c th il wl th'
| move_enter_write :
    write_lock c = None -> wl = Some (t, 1%nat) -> il = id_lock c ->
    in_write_section (at_pc th') -> ~ in_id_section (at_pc th') ->
    ~ in_id_section (at_pc th) ->
    lock_move t c th il wl th'
| move_leave_write :
    write_lock c = Some (t, 1%nat) -> wl = None -> il = id_lock c ->
    ~ in_write_section (at_pc th') -> ~ in_id_section (at_pc th') ->
    ~ in_id_section (at_pc th) ->
    lock_move t c th il wl th'.

(** The locks and the sections agree: a thread inside a section holds its
    lock, once, and a lock that is held is held by a thread inside its
    section. *)
Definition locks_ok (c : config) : Prop :=
  sections_locked c /\
  (forall o n, id_lock c = Some (o, n) ->
     exists th, threads c !! o = Some th /\ in_id_section (at_pc th)) /\
  (forall o n, write_lock c = Some (o, n) ->
     exists th, threads c !! o = Some th /\ in_write_section (at_pc th)).

(** What holds of one thread when the store is [s]. *)
Record thread_inv (s : ItemStore) (th : thread) : Prop := {
  inv_todo : Forall spec_call (todo th);
  inv_kwargs : forall kwargs, pending_kwargs (at_pc th) = Some kwargs ->
    exists summary description, kwargs = spec_fields summary description;
  inv_loaded : forall kwargs n, at_pc th = NewIdStore kwargs n ->
    n = current_id s;
  inv_pending : forall i, pending (at_pc th) = Some i ->
    i <= current_id s /\ i ∉ PyDict.keys (items s);
  inv_item : forall kv, pending_item (at_pc th) = Some kv -> record_ok kv;
  inv_release : forall r, at_pc th = AddRelease r ->
    exists item, r = Ok item /\ has_id item;
  inv_results : Forall answer_ok (results th)
}.

(** What holds of every configuration the threads reach. *)
Record inv (c : config) : Prop := {
  inv_records : records_ok (store c);
  inv_keys : Forall (fun k => k <= current_id (store c))
                    (PyDict.keys (items (store c)));
  inv_threads : forall t th, threads c !! t = Some th ->
    thread_inv (store c) th;
  inv_read : forall t th kwargs, threads c !! t = Some th ->
    at_pc th = NewIdRead kwargs ->
    Forall (fun k => k < current_id (store c)) (PyDict.keys (items (store c)))
    /\ forall t' th' i, threads c !! t' = Some th' ->
         pending (at_pc th') = Some i -> i < current_id (store c);
  inv_distinct : forall t t' th th' i,
    threads c !! t = Some th -> threads c !! t' = Some th' ->
    pending (at_pc th) = Some i -> pending (at_pc th') = Some i -> t = t'
}.

(** No two threads hold the same id for a record to insert, and no such id
    is a key of the store. *)
Definition pending_fresh (c : config) : Prop :=
  (forall t t' th th' i,
      threads c !! t = Some th -> threads c !! t' = Some th' ->
      pending (at_pc th) = Some i -> pending (at_pc th') = Some i -> t = t') /\
  (forall t th i,
      threads c !! t = Some th -> pending (at_pc th) = Some i ->
      i ∉ PyDict.keys (items (store c))).

(** Three threads: one creates an item, one looks item 1 up, one deletes
    item 1. *)
Definition racy_programs : list (list call) :=
  [[AddItem (spec_fields (VStr "a") (VStr "b"))];
   [FindItem 1]; [DeleteItem 1]].

(** Thread 0 has run up to the release of the write lock, which it holds;
    thread 1 has entered [find_item] and thread 2 [delete_item]. *)
Definition racy_config : config :=
  run_schedule [0; 0; 0; 0; 0; 0; 0; 0; 0; 1; 2]%nat (init racy_programs).

End Concurrent.

(** ** Requests

    The routing table of the application: the four URL rules and the
    handler each one is bound to.  The converter [<int:item_id>] accepts
    unsigned decimal numbers only. *)

Inductive request : Type :=
| GetItems                                (* GET /items *)
| PostItems (form : list form_key)        (* POST /items *)
| GetItem (item_id : N)                   (* GET /item/<int:item_id> *)
| DeleteItemAt (item_id : N).             (* DELETE /item/<int:item_id> *)

(** The handler of a request; [r] is the draw of [random.random()] in its
    decorator. *)
Definition dispatch (app : ServerApp) (r : float) (req : request)
    : M response :=
  match req with
  | GetItems => Routes.list_items app r
  | PostItems form => Routes.create_item app r form
  | GetItem item_id => Routes.describe_item app r (Z.of_N item_id)
  | DeleteItemAt item_id => Routes.delete_item app r (Z.of_N item_id)
  end.

(** The store after a sequence of requests, each with its draw. *)
Definition serve (app : ServerApp) (reqs : list (float * request))
    (s : ItemStore) : ItemStore :=
  foldl (fun s rq => (dispatch app rq.1 rq.2 s).2) s reqs.

(** The number of calls of [add_item] in a sequence of calls. *)
Fixpoint count_adds (cs : list call) : nat :=
  match cs with
  | [] => 0
  | AddItem _ :: cs' => S (count_adds cs')
  | _ :: cs' => count_adds cs'
  end.

(** The entry of the list view for a record that has an [id] and a
    [summary]. *)
Definition list_entry (k : Z) (summary : value) : info :=
  [("id"%string, VInt k); ("summary"%string, summary)].

(** The thread has returned from all its calls. *)
Definition finished (th : Concurrent.thread) : Prop :=
  Concurrent.at_pc th = Concurrent.Idle /\ Concurrent.todo th = [].

(** Threads that have not begun their calls, on a store [s] with both
    locks free. *)
Definition idle_config (s : ItemStore) (programs : list (list call))
    : Concurrent.config :=
  Concurrent.mkConfig s None None
    ((fun calls => Concurrent.mkThread Concurrent.Idle calls []) <$> programs).

(** A stored record with the three fields of an item, in the order in
    which [add_item] sets them, its [id] being its key. *)
Definition full_record (kv : Z * info) : Prop :=
  exists summary description,
    kv.2 = [("id"%string, VInt kv.1); ("summary"%string, summary);
            ("description"%string, description)].


(** * Properties *)

(** ** Dictionaries *)

Module PyDictFacts.
Section facts.
Context {K V : Type} `{EqDecision K}.
Implicit Types (k : K) (v : V) (d e : list (K * V)).
Import PyDict.

Lemma get_None k d : get k d = None <-> k ∉ keys d.
Proof.
  induction d as [|[k' v'] d IH]; simpl.
  - split; [intros _; apply not_elem_of_nil | done].
  - rewrite not_elem_of_cons. destruct (decide (k = k')); [|tauto].
    split; [done | by intros []].
Qed.

Lemma get_Some_elem k v d : get k d = Some v -> (k, v) ∈ d.
Proof.
  induction d as [|[k' v'] d IH]; simpl; [done|].
  destruct (decide (k = k')) as [->|].
  - intros [= ->]. apply list_elem_of_here.
  - intros. apply list_elem_of_further. auto.
Qed.

Lemma get_is_Some k d : is_Some (get k d) <-> k ∈ keys d.
Proof.
  rewrite <- not_eq_None_Some, get_None.
  destruct (decide (k ∈ keys d)); naive_solver.
Qed.

Lemma contains_true k d : contains k d = true <-> k ∈ keys d.
Proof.
  rewrite <- get_is_Some. unfold contains.
  destruct (get k d); split; try done; by eauto || intros [].
Qed.

Lemma contains_false k d : contains k d = false <-> k ∉ keys d.
Proof.
  rewrite <- contains_true. destruct (contains k d); naive_solver.
Qed.

Lemma set_absent k v d : k ∉ keys d -> set k v d = d ++ [(k, v)].
Proof.
  induction d as [|[k' v'] d IH]; simpl; [done|].
  rewrite not_elem_of_cons. intros [Hne Hd].
  destruct (decide (k = k')); [done|]. by rewrite IH.
Qed.

Lemma get_set_eq k v d : get k (set k v d) = Some v.
Proof.
  induction d as [|[k' v'] d IH]; simpl.
  - by rewrite decide_True.
  - destruct (decide (k = k')) as [->|]; simpl.
    + by rewrite decide_True.
    + by rewrite decide_False.
Qed.

Lemma get_set_ne k k' v d : k <> k' -> get k' (set k v d) = get k' d.
Proof.
  intros Hne. induction d as [|[k0 v0] d IH]; simpl.
  - by rewrite decide_False.
  - destruct (decide (k = k0)) as [->|]; simpl.
    + by rewrite !decide_False.
    + by rewrite IH.
Qed.

Lemma keys_set_present k v d : k ∈ keys d -> keys (set k v d) = keys d.
Proof.
  induction d as [|[k' v'] d IH]; simpl.
  - by intros ?%elem_of_nil.
  - destruct (decide (k = k')) as [->|]; simpl; [done|].
    intros [?|?]%elem_of_cons; [done|]. unfold keys in *. by rewrite IH.
Qed.

Lemma keys_app d e : keys (d ++ e) = keys d ++ keys e.
Proof. apply fmap_app. Qed.

Lemma values_app d e : values (d ++ e) = values d ++ values e.
Proof. apply fmap_app. Qed.

Lemma wf_set k v d : wf d -> wf (set k v d).
Proof.
  unfold wf. intros Hd. destruct (decide (k ∈ keys d)).
  - by rewrite keys_set_present.
  - rewrite set_absent, keys_app by done. apply NoDup_app.
    split_and!; [done| |apply NoDup_singleton].
    intros x Hx ->%list_elem_of_singleton. done.
Qed.

Lemma remove_None k d : remove k d = None <-> k ∉ keys d.
Proof.
  induction d as [|[k' v'] d IH]; simpl.
  - split; [intros _; apply not_elem_of_nil | done].
  - rewrite not_elem_of_cons. destruct (decide (k = k')).
    + split; [done | by intros []].
    + destruct (remove k d); split; try done.
      * intros [_ Hk]. by apply IH in Hk.
      * intros _. split; [done | by apply IH].
Qed.

Lemma remove_Some_sublist k d d' : remove k d = Some d' -> sublist d' d.
Proof.
  revert d'. induction d as [|[k' v'] d IH]; simpl; intros d'; [done|].
  destruct (decide (k = k')).
  - intros [= <-]. by apply sublist_cons.
  - destruct (remove k d); [|done]. intros [= <-]. apply sublist_skip. auto.
Qed.

Lemma remove_Some_keys k d d' :
  remove k d = Some d' -> forall k', k' ∈ keys d' -> k' ∈ keys d.
Proof.
  intros Hr%remove_Some_sublist k'. unfold keys.
  apply sublist_subseteq. by apply fmap_sublist.
Qed.

Lemma wf_remove k d d' : wf d -> remove k d = Some d' -> wf d'.
Proof.
  unfold wf, keys. intros Hd Hr%remove_Some_sublist.
  apply (sublist_NoDup d'.*1 d.*1); [done | by apply fmap_sublist].
Qed.

Lemma remove_Some_absent k d d' :
  wf d -> remove k d = Some d' -> k ∉ keys d'.
Proof.
  unfold wf. revert d'. induction d as [|[k' v'] d IH]; simpl; intros d'; [done|].
  rewrite NoDup_cons. intros [Hk' Hd]. destruct (decide (k = k')) as [->|].
  - by intros [= <-].
  - destruct (remove k d) eqn:Hr; [|done]. intros [= <-]. simpl.
    rewrite not_elem_of_cons. split; [done|]. by apply IH.
Qed.

Lemma get_remove_ne k k' d d' :
  k <> k' -> remove k d = Some d' -> get k' d' = get k' d.
Proof.
  intros Hne. revert d'. induction d as [|[k0 v0] d IH]; simpl; intros d'; [done|].
  destruct (decide (k = k0)) as [->|].
  - intros [= <-]. by rewrite decide_False.
  - destruct (remove k d); [|done]. intros [= <-]. simpl.
    destruct (decide (k' = k0)); [done|]. by apply IH.
Qed.

Lemma get_update_absent k d e : k ∉ keys e -> get k (update d e) = get k d.
Proof.
  revert d. induction e as [|[k' v'] e IH]; simpl; intros d; [done|].
  rewrite not_elem_of_cons. intros [Hne He].
  rewrite IH by done. by apply get_set_ne.
Qed.

Lemma get_update_present k v d e :
  wf e -> get k e = Some v -> get k (update d e) = Some v.
Proof.
  unfold wf. revert d. induction e as [|[k' v'] e IH]; simpl; intros d; [done|].
  rewrite NoDup_cons. intros [Hk' He]. destruct (decide (k = k')) as [->|].
  - intros [= ->]. rewrite get_update_absent by done. apply get_set_eq.
  - intros. by apply IH.
Qed.

(** A key that [e] assigns is present after the update, whether [e] assigns
    it once or more. *)
Lemma get_update_is_Some k d e :
  is_Some (get k e) -> is_Some (get k (update d e)).
Proof.
  revert d. induction e as [|[k' v'] e IH]; simpl; intros d.
  - by intros [? ?].
  - intros Hk. destruct (get k e) as [v|] eqn:He.
    + apply IH. by eexists.
    + apply get_None in He. rewrite get_update_absent by done.
      destruct (decide (k = k')) as [->|]; [|by destruct Hk].
      rewrite get_set_eq. by eexists.
Qed.
End facts.
End PyDictFacts.

(** ** The store operations, one equation each *)

Section store_equations.
Import PyDict.

Lemma new_id_eq s :
  new_id s = (Ok (current_id s + 1), mkItemStore (items s) (current_id s + 1)).
Proof. reflexivity. Qed.

Lemma add_item_eq kwargs s :
  add_item kwargs s =
  let item_id := current_id s + 1 in
  let item := update [("id"%string, VInt item_id)] kwargs in
  if contains item_id (items s)
  then (Raise AssertionError, mkItemStore (items s) item_id)
  else (Ok item, mkItemStore (set item_id item (items s)) item_id).
Proof.
  unfold add_item, bind. rewrite new_id_eq. cbn.
  by destruct (contains (current_id s + 1) (items s)).
Qed.

Lemma delete_item_eq item_id s :
  delete_item item_id s =
  match remove item_id (items s) with
  | Some d => (Ok tt, mkItemStore d (current_id s))
  | None => (Raise KeyError, s)
  end.
Proof.
  unfold delete_item, bind. cbn. by destruct (remove item_id (items s)).
Qed.

Lemma find_item_eq item_id s :
  find_item item_id s =
  match get item_id (items s) with
  | Some item => (Ok item, s)
  | None => (Raise KeyError, s)
  end.
Proof.
  unfold find_item, bind. cbn. by destruct (get item_id (items s)).
Qed.

Lemma all_items_eq s :
  all_items s =
  match mapM project (values (items s)) with
  | Some l => (Ok l, s)
  | None => (Raise KeyError, s)
  end.
Proof.
  unfold all_items, bind. cbn. by destruct (mapM project (values (items s))).
Qed.

Lemma find_item_state item_id s : (find_item item_id s).2 = s.
Proof. rewrite find_item_eq. by destruct (get item_id (items s)). Qed.

Lemma all_items_state s : (all_items s).2 = s.
Proof. rewrite all_items_eq. by destruct (mapM project (values (items s))). Qed.

Lemma update_spec_fields item_id summary description :
  update [("id"%string, VInt item_id)] (spec_fields summary description) =
  [("id"%string, VInt item_id); ("summary"%string, summary);
   ("description"%string, description)].
Proof. reflexivity. Qed.
End store_equations.

(** ** The counter bounds the keys *)

Section bounds.
Import PyDict PyDictFacts.

Lemma bounded_new_store : bounded new_store.
Proof.
  split_and!; [apply NoDup_nil_2 | done | apply Forall_nil_2].
Qed.

Lemma bounded_fresh s : bounded s -> current_id s + 1 ∉ keys (items s).
Proof.
  intros (_ & _ & Hk) Hin. rewrite Forall_forall in Hk.
  apply Hk in Hin. lia.
Qed.

Lemma bounded_absent s k :
  bounded s -> ~ (1 <= k <= current_id s) -> k ∉ keys (items s).
Proof.
  intros (_ & _ & Hk) Hout Hin. rewrite Forall_forall in Hk. auto.
Qed.

Lemma add_item_bounded kwargs s :
  bounded s ->
  let item_id := current_id s + 1 in
  let item := update [("id"%string, VInt item_id)] kwargs in
  add_item kwargs s =
    (Ok item, mkItemStore (items s ++ [(item_id, item)]) item_id).
Proof.
  intros Hb. rewrite add_item_eq. cbn zeta.
  pose proof (bounded_fresh s Hb) as Hf.
  apply contains_false in Hf as Hc. rewrite Hc.
  by rewrite set_absent.
Qed.

Lemma exec_bounded c s : bounded s -> bounded (exec c s).
Proof.
  intros Hb. destruct c as [kwargs|item_id|item_id|]; simpl.
  - rewrite add_item_bounded by done. simpl.
    pose proof (bounded_fresh s Hb) as Hf.
    destruct Hb as (Hwf & Hc & Hk). unfold bounded, wf in *. simpl.
    rewrite keys_app. split_and!.
    + apply NoDup_app. split_and!; [done| |apply NoDup_singleton].
      by intros k Hk1 ->%list_elem_of_singleton.
    + lia.
    + apply Forall_app. split.
      * eapply Forall_impl; [exact Hk|]. simpl. intros; lia.
      * apply Forall_cons. split; [simpl; lia | apply Forall_nil_2].
  - rewrite delete_item_eq. destruct (remove item_id (items s)) as [d|] eqn:Hr; [|done].
    destruct Hb as (Hwf & Hc & Hk). unfold bounded. simpl. split_and!.
    + by eapply wf_remove.
    + done.
    + rewrite Forall_forall in Hk |- *. intros k Hin. apply Hk.
      by eapply remove_Some_keys.
  - by rewrite find_item_state.
  - by rewrite all_items_state.
Qed.

Lemma run_bounded cs s : bounded s -> bounded (run cs s).
Proof.
  revert s. induction cs as [|c cs IH]; intros s Hb; simpl; [done|].
  by apply IH, exec_bounded.
Qed.

Lemma reachable_bounded s : reachable s -> bounded s.
Proof. intros [cs ->]. apply run_bounded, bounded_new_store. Qed.

Lemma reachable_new_store : reachable new_store.
Proof. by exists []. Qed.

Lemma reachable_exec c s : reachable s -> reachable (exec c s).
Proof.
  intros [cs ->]. exists (cs ++ [c]). unfold run. by rewrite foldl_app.
Qed.
End bounds.

(** ** Successive creations *)

Section creations.
Import PyDict PyDictFacts.

Lemma length_records_from c kws : length (records_from c kws) = length kws.
Proof. revert c. induction kws; intros c; simpl; [done|]. by rewrite IHkws. Qed.

Lemma add_items_run kws s :
  bounded s ->
  add_items kws s =
    (Ok (records_from (current_id s) kws),
     mkItemStore
       (items s ++ zip (seqZ (current_id s + 1) (Z.of_nat (length kws)))
                       (records_from (current_id s) kws))
       (current_id s + Z.of_nat (length kws))).
Proof.
  revert s. induction kws as [|kwargs kws IH]; intros s Hb.
  - simpl. unfold ret. rewrite app_nil_r, Z.add_0_r. by destruct s.
  - cbn [add_items]. unfold bind at 1. rewrite add_item_bounded by done.
    cbn zeta. unfold bind at 1.
    pose proof (exec_bounded (AddItem kwargs) s Hb) as Hb'.
    simpl in Hb'. rewrite add_item_bounded in Hb' by done. simpl in Hb'.
    rewrite (IH _ Hb'). simpl. unfold ret. do 2 f_equal.
    + rewrite <- app_assoc. f_equal.
      rewrite (seqZ_cons (current_id s + 1)) by lia. simpl.
      do 3 f_equal. lia.
    + lia.
Qed.

Lemma add_items_state_bounded kws s :
  bounded s -> bounded (add_items kws s).2.
Proof.
  revert s. induction kws as [|kwargs kws IH]; intros s Hb; [done|].
  cbn [add_items]. unfold bind at 1. rewrite add_item_bounded by done.
  cbn zeta. unfold bind at 1.
  pose proof (exec_bounded (AddItem kwargs) s Hb) as Hb'.
  simpl in Hb'. rewrite add_item_bounded in Hb' by done. simpl in Hb'.
  specialize (IH _ Hb').
  by destruct (add_items kws _) as [[rest|e] s''].
Qed.

Lemma id_of_records_from c kws :
  Forall (fun kwargs => "id"%string ∉ keys kwargs) kws ->
  id_of <$> records_from c kws
  = (Some ∘ VInt) <$> seqZ (c + 1) (Z.of_nat (length kws)).
Proof.
  intros Hk. revert c. induction Hk as [|kwargs kws Hid Hk IH]; intros c; [done|].
  cbn [records_from length]. rewrite (seqZ_cons (c + 1)) by lia.
  rewrite !fmap_cons. f_equal.
  - unfold id_of. by rewrite get_update_absent.
  - rewrite IH. do 2 f_equal. lia.
Qed.
End creations.

(** C1.  [n] successive calls of [add_item] on a fresh store all return;
    the keys they are given are, in call order, exactly 1, 2, ..., n, hence
    pairwise distinct and strictly increasing; before the call of rank [i]
    (from 0) [new_id] returns [i + 1], which is held by no record; and when no
    caller names a field [id], the records returned carry these ids. *)
Theorem add_items_ids (kws : list info) :
  let n := Z.of_nat (length kws) in
  exists recs s',
    add_items kws new_store = (Ok recs, s') /\
    length recs = length kws /\
    PyDict.keys (items s') = seqZ 1 n /\
    current_id s' = n /\
    NoDup (PyDict.keys (items s')) /\
    (forall (i j : nat) a b,
        PyDict.keys (items s') !! i = Some a ->
        PyDict.keys (items s') !! j = Some b ->
        (i < j)%nat -> a < b) /\
    (forall i : nat, (i < length kws)%nat ->
        let si := (add_items (take i kws) new_store).2 in
        (new_id si).1 = Ok (Z.of_nat i + 1) /\
        Z.of_nat i + 1 ∉ PyDict.keys (items si)) /\
    (Forall (fun kwargs => "id"%string ∉ PyDict.keys kwargs) kws ->
     id_of <$> recs = (Some ∘ VInt) <$> seqZ 1 n).
Proof.
  intros n. eexists _, _. split; [apply add_items_run, bounded_new_store|].
  simpl. change (0 + 1) with 1. fold n. rewrite Z.add_0_l. assert (Hkeys :
    PyDict.keys (zip (seqZ 1 n) (records_from 0 kws)) = seqZ 1 n).
  { unfold PyDict.keys. apply fst_zip.
    rewrite length_seqZ, length_records_from. lia. }
  rewrite Hkeys. split_and!.
  - apply length_records_from.
  - done.
  - done.
  - apply NoDup_seqZ.
  - intros i j a b [-> _]%lookup_seqZ [-> _]%lookup_seqZ. lia.
  - intros i Hi.
    pose proof (add_items_state_bounded (take i kws) new_store
                  bounded_new_store) as Hb.
    apply bounded_fresh in Hb.
    rewrite add_items_run in Hb |- * by apply bounded_new_store.
    simpl in *. rewrite length_take, Nat.min_l in Hb |- * by lia. done.
  - intros Hk. by apply (id_of_records_from 0).
Qed.

(** ** Creation followed by lookup *)

(** C2.  In every state of the store and for all values of the fields
    [summary] and [description], [add_item] returns the record it stores:
    the id it has just allocated together with exactly the two fields; and
    [find_item] on that id, right afterwards, returns this record, whose
    [summary] and [description] are the values supplied. *)
Theorem add_item_then_find_item (s : ItemStore) (summary description : value) :
  reachable s ->
  let item_id := current_id s + 1 in
  let item := [("id"%string, VInt item_id); ("summary"%string, summary);
               ("description"%string, description)] in
  exists s',
    add_item (spec_fields summary description) s = (Ok item, s') /\
    (new_id s).1 = Ok item_id /\
    (item_id ∉ PyDict.keys (items s)) /\
    PyDict.get item_id (items s') = Some item /\
    find_item item_id s' = (Ok item, s') /\
    PyDict.get "summary"%string item = Some summary /\
    PyDict.get "description"%string item = Some description.
Proof.
  intros Hb%reachable_bounded item_id item.
  eexists. split; [by apply add_item_bounded|].
  rewrite update_spec_fields, find_item_eq. cbn [items].
  pose proof (bounded_fresh s Hb) as Hfresh.
  assert (PyDict.get item_id (items s ++ [(item_id, item)]) = Some item) as Hget.
  { rewrite <- PyDictFacts.set_absent by done. apply PyDictFacts.get_set_eq. }
  fold item_id item. rewrite Hget. by split_and!.
Qed.

Lemma add_item_then_find_item_witness :
  exists s',
    add_item (spec_fields (VStr "buy milk") (VStr "2%")) new_store
    = (Ok [("id"%string, VInt 1); ("summary"%string, VStr "buy milk");
           ("description"%string, VStr "2%")], s') /\
    find_item 1 s'
    = (Ok [("id"%string, VInt 1); ("summary"%string, VStr "buy milk");
           ("description"%string, VStr "2%")], s').
Proof.
  destruct (add_item_then_find_item new_store (VStr "buy milk") (VStr "2%")
              reachable_new_store) as (s' & Hadd & _ & _ & _ & Hfind & _).
  exists s'. split; [exact Hadd | exact Hfind].
Defined.

(** ** Deletion *)

(** C4.  In every state of the store and for every id, [delete_item] raises
    [KeyError] exactly when the id is absent, which is the case of an id that
    was never issued and of one that has been deleted; it raises nothing
    else, and when it raises the store is as before; once it has returned,
    [find_item] and a second [delete_item] on the same id raise [KeyError]. *)
Theorem delete_item_not_found (s : ItemStore) (item_id : Z) :
  reachable s ->
  let r := delete_item item_id s in
  (r.1 = Raise KeyError <-> item_id ∉ PyDict.keys (items s)) /\
  (forall e, r.1 = Raise e -> e = KeyError /\ r.2 = s) /\
  (~ (1 <= item_id <= current_id s) -> r = (Raise KeyError, s)) /\
  (r.1 = Ok tt ->
   find_item item_id r.2 = (Raise KeyError, r.2) /\
   delete_item item_id r.2 = (Raise KeyError, r.2)).
Proof.
  intros Hb%reachable_bounded r. subst r. rewrite delete_item_eq.
  destruct (PyDict.remove item_id (items s)) as [d|] eqn:Hr; cbn [fst snd].
  - assert (item_id ∈ PyDict.keys (items s)) as Hin.
    { destruct (decide (item_id ∈ PyDict.keys (items s))) as [|Hn]; [done|].
      apply PyDictFacts.remove_None in Hn. congruence. }
    split_and!; try done.
    + intros Hout. by apply (bounded_absent s item_id Hb) in Hout.
    + intros _. destruct Hb as (Hwf & _).
      pose proof (PyDictFacts.remove_Some_absent _ _ _ Hwf Hr) as Hgone.
      rewrite find_item_eq, delete_item_eq. cbn [items].
      apply PyDictFacts.get_None in Hgone as Hget.
      apply PyDictFacts.remove_None in Hgone as Hrem.
      by rewrite Hget, Hrem.
  - apply PyDictFacts.remove_None in Hr.
    split_and!; try done. intros e [= <-]. done.
Qed.

Lemma delete_item_not_found_witness :
  delete_item 7 (exec (AddItem (spec_fields (VStr "a") (VStr "b"))) new_store)
  = (Raise KeyError,
     exec (AddItem (spec_fields (VStr "a") (VStr "b"))) new_store).
Proof.
  destruct (delete_item_not_found
              (exec (AddItem (spec_fields (VStr "a") (VStr "b"))) new_store) 7
              (reachable_exec _ _ reachable_new_store))
    as (_ & _ & Hout & _).
  apply Hout. cbn. lia.
Defined.

(** ** A caller-supplied [id] *)

(** C10.  When the fields given to [add_item] include a key [id], its value
    replaces the allocated id in the record: the record stored under the
    allocated key, which is the one returned, carries the caller's value, and
    so an [id] that differs from its key whenever that value does. *)
Theorem add_item_id_overwritten (s : ItemStore) (kwargs : info) (v : value) :
  reachable s ->
  PyDict.wf kwargs ->
  PyDict.get "id"%string kwargs = Some v ->
  v <> VInt (current_id s + 1) ->
  exists item s',
    add_item kwargs s = (Ok item, s') /\
    (new_id s).1 = Ok (current_id s + 1) /\
    PyDict.get (current_id s + 1) (items s') = Some item /\
    id_of item = Some v /\
    id_of item <> Some (VInt (current_id s + 1)).
Proof.
  intros Hb%reachable_bounded Hwf Hid Hv.
  eexists _, _. split; [by apply add_item_bounded|]. cbn [items].
  pose proof (bounded_fresh s Hb) as Hfresh.
  set (item := PyDict.update _ kwargs).
  assert (id_of item = Some v) as Hitem
    by (by apply PyDictFacts.get_update_present).
  split_and!; try done.
  - rewrite <- (PyDictFacts.set_absent _ item) by done.
    apply PyDictFacts.get_set_eq.
  - rewrite Hitem. congruence.
Qed.

Lemma add_item_id_overwritten_witness :
  exists item s',
    add_item [("id"%string, VInt 99); ("summary"%string, VStr "x")] new_store
    = (Ok item, s') /\
    PyDict.get 1 (items s') = Some item /\
    id_of item = Some (VInt 99).
Proof.
  destruct (add_item_id_overwritten new_store
              [("id"%string, VInt 99); ("summary"%string, VStr "x")] (VInt 99)
              reachable_new_store)
    as (item & s' & Hadd & _ & Hget & Hid & _).
  - unfold PyDict.wf. refine (bool_decide_unpack _ _). exact I.
  - reflexivity.
  - discriminate.
  - exists item, s'. split_and!; [exact Hadd | exact Hget | exact Hid].
Defined.

(** ** Records and their keys *)

Section records.
Import PyDict PyDictFacts.

Lemma records_ok_new_store : records_ok new_store.
Proof. split; [apply NoDup_nil_2 | apply Forall_nil_2]. Qed.

Lemma exec_records_ok c s :
  spec_call c -> records_ok s -> records_ok (exec c s).
Proof.
  intros Hc [Hwf Hrec]. destruct c as [kwargs|item_id|item_id|]; simpl.
  - destruct Hc as (summary & description & ->). rewrite add_item_eq.
    cbn zeta. rewrite update_spec_fields.
    destruct (contains (current_id s + 1) (items s)) eqn:Hin; [done|].
    apply contains_false in Hin. split; cbn [snd items].
    + by apply wf_set.
    + rewrite set_absent by done. apply Forall_app. split; [done|].
      apply Forall_singleton. split; [done | by eexists].
  - rewrite delete_item_eq.
    destruct (remove item_id (items s)) as [d|] eqn:Hr; [|done].
    split; cbn [snd items]; [by eapply wf_remove|].
    apply remove_Some_sublist, sublist_subseteq in Hr.
    rewrite Forall_forall in Hrec |- *. auto.
  - by rewrite find_item_state.
  - by rewrite all_items_state.
Qed.

Lemma run_records_ok cs s :
  Forall spec_call cs -> records_ok s -> records_ok (run cs s).
Proof.
  intros Hcs. revert s. induction Hcs as [|c cs Hc Hcs IH]; intros s Hs; [done|].
  simpl. by apply IH, exec_records_ok.
Qed.

Lemma spec_call_listable c : spec_call c -> listable_call c.
Proof.
  destruct c as [kwargs| | |]; [|done..].
  intros (summary & description & ->). split; [|by eexists].
  cbn. rewrite !not_elem_of_cons. split_and!; [done..|apply not_elem_of_nil].
Qed.

(** The record [add_item] builds from fields with a summary and no [id]. *)
Lemma record_ok_listable i kwargs :
  listable_call (AddItem kwargs) ->
  record_ok (i, update [("id"%string, VInt i)] kwargs).
Proof.
  intros [Hid Hsm]. split; cbn [fst snd].
  - unfold id_of. rewrite get_update_absent by done. reflexivity.
  - by apply get_update_is_Some.
Qed.

Lemma exec_listable_records_ok c s :
  listable_call c -> records_ok s -> records_ok (exec c s).
Proof.
  intros Hc [Hwf Hrec]. destruct c as [kwargs|item_id|item_id|]; simpl.
  - rewrite add_item_eq. cbn zeta.
    destruct (contains (current_id s + 1) (items s)) eqn:Hin; [done|].
    apply contains_false in Hin. split; cbn [snd items].
    + by apply wf_set.
    + rewrite set_absent by done. apply Forall_app. split; [done|].
      apply Forall_singleton. by apply record_ok_listable.
  - rewrite delete_item_eq.
    destruct (remove item_id (items s)) as [d|] eqn:Hr; [|done].
    split; cbn [snd items]; [by eapply wf_remove|].
    apply remove_Some_sublist, sublist_subseteq in Hr.
    rewrite Forall_forall in Hrec |- *. auto.
  - by rewrite find_item_state.
  - by rewrite all_items_state.
Qed.

Lemma run_listable_records_ok cs s :
  Forall listable_call cs -> records_ok s -> records_ok (run cs s).
Proof.
  intros Hcs. revert s. induction Hcs as [|c cs Hc Hcs IH]; intros s Hs; [done|].
  simpl. by apply IH, exec_listable_records_ok.
Qed.

Lemma records_ok_ids d :
  Forall record_ok d -> id_of <$> values d = (Some ∘ VInt) <$> keys d.
Proof.
  induction 1 as [|[k item] d [Hid _] _ IH]; [done|].
  unfold values, keys in *. rewrite !fmap_cons. simpl in *. by f_equal.
Qed.

Lemma records_ok_store_ok s : records_ok s -> store_ok s.
Proof.
  intros [Hwf Hrec]. pose proof (records_ok_ids _ Hrec) as Hids.
  split_and!; [done | done |]. rewrite Hids.
  apply NoDup_fmap_2; [|done]. by intros x y [= ->].
Qed.

Lemma ids_match_Forall (d : list (Z * info)) :
  id_of <$> values d = (Some ∘ VInt) <$> keys d <->
  Forall (fun kv => id_of kv.2 = Some (VInt kv.1)) d.
Proof.
  unfold values, keys. induction d as [|[k item] d IH].
  - split; [intros _; apply Forall_nil_2 | done].
  - rewrite !fmap_cons, Forall_cons. simpl. split.
    + intros [= Hid Hd]. split; [done | by apply IH].
    + intros [Hid Hd]. f_equal; [done | by apply IH].
Qed.

Lemma store_ok_Forall s :
  store_ok s <->
  wf (items s) /\ Forall (fun kv => id_of kv.2 = Some (VInt kv.1)) (items s).
Proof.
  unfold store_ok, ids_match_keys. rewrite ids_match_Forall. split.
  - by intros (Hwf & Hids & _).
  - intros [Hwf Hids]. split_and!; [done..|].
    apply ids_match_Forall in Hids as ->.
    apply NoDup_fmap_2; [|done]. by intros x y [= ->].
Qed.

Lemma exec_store_ok c s : spec_call c -> store_ok s -> store_ok (exec c s).
Proof.
  rewrite !store_ok_Forall.
  intros Hc [Hwf Hids]. destruct c as [kwargs|item_id|item_id|]; simpl.
  - destruct Hc as (summary & description & ->). rewrite add_item_eq.
    cbn zeta. rewrite update_spec_fields.
    destruct (contains (current_id s + 1) (items s)) eqn:Hin; [done|].
    apply contains_false in Hin. split; cbn [snd items].
    + by apply wf_set.
    + rewrite set_absent by done. apply Forall_app. split; [done|].
      by apply Forall_singleton.
  - rewrite delete_item_eq.
    destruct (remove item_id (items s)) as [d|] eqn:Hr; [|done].
    split; cbn [snd items]; [by eapply wf_remove|].
    apply remove_Some_sublist, sublist_subseteq in Hr.
    rewrite Forall_forall in Hids |- *. auto.
  - by rewrite find_item_state.
  - by rewrite all_items_state.
Qed.

Lemma records_ok_all_items d :
  Forall record_ok d ->
  exists l, mapM project (values d) = Some l /\
    id_of <$> l = (Some ∘ VInt) <$> keys d /\
    Forall2 (fun kv entry => entry_of kv.1 kv.2 entry) d l.
Proof.
  induction 1 as [|[k item] d [Hid [sm Hsm]] _ (l & Hl & Hids & Hall)].
  - by exists [].
  - exists ([("id"%string, VInt k); ("summary"%string, sm)] :: l).
    assert (project item
            = Some [("id"%string, VInt k); ("summary"%string, sm)]) as Hp.
    { unfold project. unfold id_of in Hid. simpl in Hid, Hsm.
      by rewrite Hid, Hsm. }
    change (values ((k, item) :: d)) with (item :: values d).
    cbn [mapM]. rewrite Hp, Hl. split_and!; [done| |].
    + unfold keys in *. rewrite !fmap_cons. by f_equal.
    + constructor; [|done]. simpl in Hsm. by split_and!.
Qed.

Lemma records_ok_all_items_exact s : records_ok s -> all_items_exact s.
Proof.
  intros [_ Hrec]. destruct (records_ok_all_items _ Hrec) as (l & Hl & ?).
  exists l. by rewrite all_items_eq, Hl.
Qed.

(** Conversely, the list is exact only when every record names its own key
    and has a summary. *)
Lemma all_items_exact_records s :
  all_items_exact s -> Forall record_ok (items s).
Proof.
  intros (l & Hl & _ & Hall). rewrite all_items_eq in Hl.
  destruct (mapM project (values (items s))) as [l'|] eqn:Hm; [|done].
  injection Hl as ->. apply mapM_Some in Hm. unfold values in Hm.
  revert l Hm Hall. induction (items s) as [|[k item] d IH]; intros l Hm Hall.
  - apply Forall_nil_2.
  - rewrite fmap_cons in Hm.
    apply Forall2_cons_inv_l in Hm as (entry & l' & Hp & Hm & ->).
    apply Forall2_cons in Hall as [(_ & Hid & _) Hall].
    apply Forall_cons. split; [|by eapply IH].
    cbn [fst snd] in *. unfold project in Hp. unfold record_ok, id_of in *.
    cbn [fst snd].
    destruct (get "id"%string item) as [i|]; [|done].
    destruct (get "summary"%string item) as [sm|]; [|done].
    injection Hp as <-. split; [done | by eexists].
Qed.
End records.

(** C5, as the code has it.  In every state that calls lead to from the
    fresh store, when the fields given to [add_item] hold a summary and no
    [id], whatever else they hold, [all_items] returns one entry for each
    stored record, in the order of the store: the ids listed are exactly the
    keys of the store, and every entry has the two fields [id] and [summary]
    of its record and no [description]. *)
Theorem all_items_projection (cs : list call) :
  Forall listable_call cs ->
  all_items_exact (run cs new_store).
Proof.
  intros Hcs. apply records_ok_all_items_exact, run_listable_records_ok; [done|].
  apply records_ok_new_store.
Qed.

Lemma all_items_projection_witness :
  all_items_exact
    (run [AddItem [("summary"%string, VStr "walk dog")];
          AddItem (spec_fields (VStr "buy milk") (VStr "2%"));
          AddItem [("summary"%string, VStr "call home");
                   ("due"%string, VStr "today")];
          DeleteItem 2; AllItems] new_store).
Proof.
  apply all_items_projection.
  repeat apply Forall_cons_2; try apply Forall_nil_2; try exact I;
    (split; [refine (bool_decide_unpack _ _); exact I | by eexists]).
Defined.

(** C5 as stated fails: after [add_item(id=99, summary='x')] on a fresh
    store, the only record is held under key 1 and [all_items] lists the id
    99, which is no key of the store, and leaves out 1.  And after
    [add_item(description='no title')] on a fresh store, the record held
    under key 1 has no summary and [all_items] returns no list: it raises
    [KeyError]. *)
Lemma all_items_foreign_id :
  (reachable store_with_foreign_id /\
   PyDict.keys (items store_with_foreign_id) = [1] /\
   all_items store_with_foreign_id
   = (Ok [[("id"%string, VInt 99); ("summary"%string, VStr "x")]],
      store_with_foreign_id) /\
   ~ all_items_exact store_with_foreign_id) /\
  (reachable store_without_summary /\
   PyDict.keys (items store_without_summary) = [1] /\
   all_items store_without_summary = (Raise KeyError, store_without_summary) /\
   ~ all_items_exact store_without_summary).
Proof.
  split.
  - split_and!; [apply reachable_exec, reachable_new_store | done | done |].
    intros (l & Hl & Hids & _). vm_compute in Hl, Hids.
    injection Hl as <-. discriminate Hids.
  - split_and!; [apply reachable_exec, reachable_new_store | done | done |].
    intros (l & Hl & _). vm_compute in Hl. discriminate Hl.
Qed.

(** ** The invariant of the store *)

(** C6.  Started from the empty store and called with the fields [summary]
    and [description], the four operations keep the invariant: no key is
    held twice, every record is stored under the key its [id] field names
    (the ids of the records are the keys of the store), and no two records
    share an id.  The invariant holds of the empty store and every operation
    preserves it, so it holds after every sequence of calls. *)
Theorem store_ok_invariant :
  store_ok new_store /\
  (forall c s, spec_call c -> store_ok s -> store_ok (exec c s)) /\
  (forall cs, Forall spec_call cs -> store_ok (run cs new_store)).
Proof.
  split_and!.
  - apply records_ok_store_ok, records_ok_new_store.
  - apply exec_store_ok.
  - intros cs Hcs. apply records_ok_store_ok, run_records_ok; [done|].
    apply records_ok_new_store.
Qed.

Lemma store_ok_invariant_witness :
  store_ok
    (run [AddItem (spec_fields (VStr "buy milk") (VStr "2%"));
          DeleteItem 1; FindItem 1;
          AddItem (spec_fields (VStr "walk dog") (VStr "far")); AllItems]
         new_store).
Proof.
  apply store_ok_invariant.
  repeat (apply Forall_cons; split; [simpl; eauto|]). apply Forall_nil_2.
Defined.

(** ** Comparisons of floats *)

Section float_order.

Lemma digits2_pos_bounds (m : positive) :
  2 ^ (Z.pos (digits2_pos m) - 1) <= Z.pos m < 2 ^ Z.pos (digits2_pos m).
Proof.
  induction m as [m IH|m IH|]; cbn [digits2_pos].
  - rewrite Pos2Z.inj_succ, Z.pow_succ_r by lia.
    replace (Z.succ (Z.pos (digits2_pos m)) - 1)
      with (Z.succ (Z.pos (digits2_pos m) - 1)) by lia.
    rewrite Z.pow_succ_r by lia. lia.
  - rewrite Pos2Z.inj_succ, Z.pow_succ_r by lia.
    replace (Z.succ (Z.pos (digits2_pos m)) - 1)
      with (Z.succ (Z.pos (digits2_pos m) - 1)) by lia.
    rewrite Z.pow_succ_r by lia. lia.
  - done.
Qed.

(** What it takes for a mantissa and an exponent to be those of a
    binary64 number. *)
Lemma bounded_finite (m : positive) (e : Z) :
  SpecFloat.bounded prec emax m e = true ->
  -1074 <= e /\ Z.pos m < 2 ^ 53 /\ (-1074 < e -> 2 ^ 52 <= Z.pos m).
Proof.
  unfold SpecFloat.bounded, canonical_mantissa, fexp, emin, prec, emax.
  intros [Hc _]%andb_prop. apply Z.eqb_eq in Hc.
  pose proof (digits2_pos_bounds m) as [Hlo Hhi].
  set (d := Z.pos (digits2_pos m)) in *.
  assert (0 < d) as Hd by (subst d; lia).
  split_and!.
  - lia.
  - assert (d <= 53) as Hd53 by lia.
    eapply Z.lt_le_trans; [exact Hhi|].
    apply Z.pow_le_mono_r; lia.
  - intros He. assert (d = 53) as Hd53 by lia.
    rewrite Hd53 in Hlo. exact Hlo.
Qed.

Lemma scaled_lt (m1 m2 : positive) (e1 e2 : Z) :
  SpecFloat.bounded prec emax m1 e1 = true ->
  SpecFloat.bounded prec emax m2 e2 = true ->
  e1 < e2 ->
  Z.pos m1 * 2 ^ (e1 + 1074) < Z.pos m2 * 2 ^ (e2 + 1074).
Proof.
  intros (He1 & Hm1 & _)%bounded_finite (He2 & _ & Hm2)%bounded_finite Hlt.
  specialize (Hm2 ltac:(lia)).
  replace (e2 + 1074) with ((e2 - e1 - 1) + 1 + (e1 + 1074)) by lia.
  rewrite (Z.pow_add_r 2 (e2 - e1 - 1 + 1) (e1 + 1074)) by lia.
  rewrite (Z.pow_add_r 2 (e2 - e1 - 1) 1) by lia.
  assert (0 < 2 ^ (e1 + 1074)) by (apply Z.pow_pos_nonneg; lia).
  assert (0 < 2 ^ (e2 - e1 - 1)) by (apply Z.pow_pos_nonneg; lia).
  change (2 ^ 53) with (2 ^ 52 * 2) in Hm1. change (2 ^ 1) with 2.
  generalize dependent (2 ^ 52). intros c Hm1 Hm2.
  generalize dependent (2 ^ (e1 + 1074)). intros x Hx.
  generalize dependent (2 ^ (e2 - e1 - 1)). intros y Hy.
  assert (Z.pos m1 * x < c * 2 * x) by (apply Z.mul_lt_mono_pos_r; lia).
  assert (c * 2 * x <= Z.pos m2 * 2 * x) by (apply Z.mul_le_mono_nonneg_r; lia).
  assert (Z.pos m2 * 2 * x * 1 <= Z.pos m2 * 2 * x * y)
    by (apply Z.mul_le_mono_nonneg_l; lia).
  lia.
Qed.

Lemma compare_scaled (m1 m2 : positive) (e1 e2 : Z) :
  SpecFloat.bounded prec emax m1 e1 = true ->
  SpecFloat.bounded prec emax m2 e2 = true ->
  match e1 ?= e2 with
  | Lt => Lt
  | Gt => Gt
  | Eq => Pos.compare_cont Eq m1 m2
  end
  = (Z.pos m1 * 2 ^ (e1 + 1074) ?= Z.pos m2 * 2 ^ (e2 + 1074)).
Proof.
  intros H1 H2. destruct (Z.compare_spec e1 e2) as [->|Hlt|Hgt].
  - pose proof (bounded_finite _ _ H2) as (He & _).
    assert (0 < 2 ^ (e2 + 1074)) by (apply Z.pow_pos_nonneg; lia).
    symmetry. by rewrite <- Zmult_compare_compat_r by lia.
  - symmetry. apply Z.compare_lt_iff. by apply scaled_lt.
  - symmetry. apply Z.compare_gt_iff. by apply scaled_lt.
Qed.

Lemma SFcompare_units (x y : spec_float) (a b : Z) :
  valid_binary x = true ->
  valid_binary y = true ->
  SFunits x = Some a -> SFunits y = Some b ->
  SFcompare x y = Some (a ?= b).
Proof.
  unfold valid_binary. intros Hx Hy.
  destruct x as [sx|sx| |sx mx ex], y as [sy|sy| |sy my ey];
    cbn [SFunits SFcompare SpecFloat.valid_binary] in *;
    intros [= <-] [= <-]; try done.
  - pose proof (bounded_finite _ _ Hy) as (He & _).
    assert (0 < 2 ^ (ey + 1074)) by (apply Z.pow_pos_nonneg; lia).
    destruct sy; cbn [cond_Zopp]; f_equal; symmetry;
      [apply Z.compare_gt_iff | apply Z.compare_lt_iff]; lia.
  - pose proof (bounded_finite _ _ Hx) as (He & _).
    assert (0 < 2 ^ (ex + 1074)) by (apply Z.pow_pos_nonneg; lia).
    destruct sx; cbn [cond_Zopp]; f_equal; symmetry;
      [apply Z.compare_lt_iff | apply Z.compare_gt_iff]; lia.
  - pose proof (bounded_finite _ _ Hx) as (Hex & _).
    pose proof (bounded_finite _ _ Hy) as (Hey & _).
    assert (0 < 2 ^ (ex + 1074)) by (apply Z.pow_pos_nonneg; lia).
    assert (0 < 2 ^ (ey + 1074)) by (apply Z.pow_pos_nonneg; lia).
    destruct sx, sy; cbn [cond_Zopp]; f_equal.
    + rewrite Z.compare_opp, <- (compare_scaled my mx ey ex Hy Hx).
      rewrite (Z.compare_antisym ex ey).
      destruct (ex ?= ey); simpl; try done. symmetry. apply ZC4.
    + symmetry. apply Z.compare_lt_iff. lia.
    + symmetry. apply Z.compare_gt_iff. lia.
    + by apply compare_scaled.
Qed.

Lemma ltb_units (x y : float) (a b : Z) :
  units x = Some a -> units y = Some b ->
  PrimFloat.ltb x y = bool_decide (a < b).
Proof.
  intros Hx Hy. rewrite ltb_spec. unfold SFltb.
  rewrite (SFcompare_units _ _ a b) by (done || apply Prim2SF_valid).
  destruct (Z.compare_spec a b); case_bool_decide; try done; lia.
Qed.

Lemma leb_units (x y : float) (a b : Z) :
  units x = Some a -> units y = Some b ->
  PrimFloat.leb x y = bool_decide (a <= b).
Proof.
  intros Hx Hy. rewrite leb_spec. unfold SFleb.
  rewrite (SFcompare_units _ _ a b) by (done || apply Prim2SF_valid).
  destruct (Z.compare_spec a b); case_bool_decide; try done; lia.
Qed.

Lemma units_zero : units 0%float = Some 0.
Proof. reflexivity. Qed.

Lemma units_one : units 1%float = Some unit_one.
Proof. reflexivity. Qed.

(** The test of [get_args] decides membership in the unit interval. *)
Lemma range_check_units (f : float) :
  (PrimFloat.leb 0 f && PrimFloat.leb f 1)%bool = true <-> in_unit_interval f.
Proof.
  split.
  - intros [H0 H1]%andb_prop.
    destruct (units f) as [a|] eqn:Hf.
    + exists a. split; [done|].
      rewrite (leb_units _ _ _ _ units_zero Hf) in H0.
      rewrite (leb_units _ _ _ _ Hf units_one) in H1.
      apply bool_decide_eq_true in H0, H1. lia.
    + exfalso. rewrite leb_spec in H0, H1. unfold units in Hf.
      change (Prim2SF 0) with (S754_zero false) in H0.
      change (Prim2SF 1) with (S754_finite false 4503599627370496 (-52)) in H1.
      destruct (Prim2SF f) as [s|[]| |s m e]; try done.
  - intros (a & Hf & Ha).
    rewrite (leb_units _ _ _ _ units_zero Hf), (leb_units _ _ _ _ Hf units_one).
    apply andb_true_intro. split; apply bool_decide_eq_true; lia.
Qed.
End float_order.

(** ** The failure-injecting decorator *)

(** C3.  With a failure rate [p] in [[0, 1]] and a draw [r] in [[0, 1)],
    the decorated call raises [RuntimeError] when [r < p], whatever the
    wrapped operation is, and the store is as before; otherwise it is the
    wrapped operation, with its result, its exception and its effect on the
    store.  With [p = 0] the wrapped operation always runs; with [p = 1] the
    call always raises and the wrapped operation never runs. *)
Theorem unreliable_decision {A : Type} (func : M A) (app : ServerApp)
    (p r : float) (a b : Z) (s : ItemStore) :
  _failure_rate app = Some p ->
  units p = Some b -> 0 <= b <= unit_one ->
  units r = Some a -> 0 <= a < unit_one ->
  (a < b -> unreliable app r func s = (Raise RuntimeError, s)) /\
  (b <= a -> unreliable app r func s = func s) /\
  (b = 0 -> unreliable app r func s = func s) /\
  (b = unit_one -> unreliable app r func s = (Raise RuntimeError, s)).
Proof.
  intros Happ Hp Hb Hr Ha. unfold unreliable. rewrite Happ.
  rewrite (ltb_units r p a b Hr Hp).
  split_and!; intros; case_bool_decide; done || lia.
Qed.

Lemma unreliable_decision_witness :
  unreliable (mkServerApp (Some 0.5%float) false) 0.25%float
             (add_item (spec_fields (VStr "a") (VStr "b"))) new_store
  = (Raise RuntimeError, new_store).
Proof.
  refine (proj1 (unreliable_decision _ (mkServerApp (Some 0.5%float) false)
                   0.5%float 0.25%float (2 ^ 1072) (2 ^ 1073) new_store
                   eq_refl eq_refl _ eq_refl _) _).
  - split; intros H; discriminate H.
  - split; [intros H; discriminate H | reflexivity].
  - reflexivity.
Defined.

(** ** Start-up *)

(** C8.  When the failure rate is a number of [[0, 1]] the assertion of
    [get_args] passes and the application starts with this rate; when it is
    not (a number outside the interval, an infinity or NaN) [get_args]
    raises [AssertionError] and nothing is started.  The default rate is in
    the interval. *)
Theorem failure_rate_validated (a : argv) :
  let f := default DEFAULT_FAILURE_RATE (opt_failure_rate a) in
  (in_unit_interval f ->
   get_args a = Ok (mkArgs (default 8042 (opt_port a)) f (opt_debug a)) /\
   main a = Ok (mkServerApp (Some f) (opt_debug a), default 8042 (opt_port a))) /\
  (~ in_unit_interval f ->
   get_args a = Raise AssertionError /\ main a = Raise AssertionError) /\
  in_unit_interval DEFAULT_FAILURE_RATE.
Proof.
  intros f. unfold main, get_args. cbn [args_failure_rate]. fold f.
  pose proof (range_check_units f) as Hf.
  destruct (PrimFloat.leb 0 f && PrimFloat.leb f 1)%bool; split_and!.
  - intros _. cbn. by destruct (opt_debug a).
  - intros Hn. exfalso. apply Hn, Hf. done.
  - by apply range_check_units.
  - intros Hin. apply Hf in Hin. done.
  - done.
  - by apply range_check_units.
Qed.

Lemma failure_rate_validated_witness :
  main (mkArgv None (Some 1.5%float) false) = Raise AssertionError /\
  main (mkArgv (Some 8000) (Some 0.5%float) true)
  = Ok (mkServerApp (Some 0.5%float) true, 8000).
Proof.
  split.
  - apply (failure_rate_validated (mkArgv None (Some 1.5%float) false)).
    intros (x & [= <-] & _ & Hle). apply Hle. reflexivity.
  - apply (failure_rate_validated (mkArgv (Some 8000) (Some 0.5%float) true)).
    exists (2 ^ 1073). split; [reflexivity|].
    split; intros H; discriminate H.
Defined.

(** ** Creation over HTTP *)




(** ** Threads: the locks, then the store *)

Module ConcurrentFacts.
Import Concurrent.

Lemma lookup_step_Some (l : list thread) t th' t0 th0 :
  <[t:=th']> l !! t0 = Some th0 ->
  (t0 = t /\ th0 = th') \/ (t0 <> t /\ l !! t0 = Some th0).
Proof.
  intros [(-> & -> & _)|(Hne & Hl)]%list_lookup_insert_Some; [by left|].
  right. by split.
Qed.

Lemma step_unfold t c :
  step t c = c \/
  exists th s il wl th',
    threads c !! t = Some th /\
    step_thread t c th = Some (s, il, wl, th') /\
    step t c = mkConfig s il wl (<[t:=th']> (threads c)).
Proof.
  unfold step. destruct (threads c !! t) as [th|] eqn:Ht; [|by left].
  destruct (step_thread t c th) as [[[[s il] wl] th']|] eqn:Hs; [|by left].
  right. by exists th, s, il, wl, th'.
Qed.

Section locks.
Context (c : config) (Hlocks : locks_ok c).
Context (t : nat) (th : thread) (Ht : threads c !! t = Some th).

Lemma acquire_id_lock l :
  ~ in_id_section (at_pc th) ->
  acquire t (id_lock c) = Some l ->
  id_lock c = None /\ l = Some (t, 1%nat).
Proof.
  intros Hout Hacq. destruct Hlocks as (_ & Hown & _).
  destruct (id_lock c) as [[o n]|] eqn:Hl; simpl in Hacq.
  - destruct (decide (o = t)) as [->|]; [|done].
    destruct (Hown t n eq_refl) as (th0 & Hth0 & Hin). congruence.
  - by injection Hacq as <-.
Qed.

Lemma acquire_write_lock l :
  ~ in_write_section (at_pc th) ->
  acquire t (write_lock c) = Some l ->
  write_lock c = None /\ l = Some (t, 1%nat).
Proof.
  intros Hout Hacq. destruct Hlocks as (_ & _ & Hown).
  destruct (write_lock c) as [[o n]|] eqn:Hl; simpl in Hacq.
  - destruct (decide (o = t)) as [->|]; [|done].
    destruct (Hown t n eq_refl) as (th0 & Hth0 & Hin). congruence.
  - by injection Hacq as <-.
Qed.

Lemma release_id_lock :
  in_id_section (at_pc th) ->
  id_lock c = Some (t, 1%nat) /\ release t (id_lock c) = Some None.
Proof.
  intros Hin. destruct Hlocks as (Hsec & _).
  destruct (Hsec t th Ht) as [Hid _]. rewrite (Hid Hin). simpl.
  by rewrite decide_True.
Qed.

Lemma release_write_lock :
  in_write_section (at_pc th) ->
  write_lock c = Some (t, 1%nat) /\ release t (write_lock c) = Some None.
Proof.
  intros Hin. destruct Hlocks as (Hsec & _).
  destruct (Hsec t th Ht) as [_ Hw]. rewrite (Hw Hin). simpl.
  by rewrite decide_True.
Qed.

Lemma id_section_alone t' th' :
  threads c !! t' = Some th' ->
  in_id_section (at_pc th) -> in_id_section (at_pc th') -> t' = t.
Proof.
  intros Ht' Hin Hin'. destruct Hlocks as (Hsec & _).
  destruct (Hsec t th Ht) as [Hid _], (Hsec t' th' Ht') as [Hid' _].
  specialize (Hid Hin). specialize (Hid' Hin'). congruence.
Qed.

Lemma write_section_alone t' th' :
  threads c !! t' = Some th' ->
  in_write_section (at_pc th) -> in_write_section (at_pc th') -> t' = t.
Proof.
  intros Ht' Hin Hin'. destruct Hlocks as (Hsec & _).
  destruct (Hsec t th Ht) as [_ Hw], (Hsec t' th' Ht') as [_ Hw'].
  specialize (Hw Hin). specialize (Hw' Hin'). congruence.
Qed.
End locks.

Lemma step_thread_lock_move t c th s il wl th' :
  locks_ok c ->
  threads c !! t = Some th ->
  step_thread t c th = Some (s, il, wl, th') ->
  lock_move t c th il wl th'.
Proof.
  intros Hlocks Ht Hs. destruct th as [p td rs]. unfold step_thread in Hs.
  cbn [at_pc todo results] in Hs.
  destruct p; simplify_eq/=.
  - destruct td as [|cl rest]; simplify_eq. apply move_none; try done;
      destruct cl; simpl; tauto.
  - destruct (acquire t (id_lock c)) as [l|] eqn:Hacq; simplify_eq.
    eapply (acquire_id_lock c Hlocks t _ Ht) in Hacq as [Hfree ->]; [|by auto].
    apply move_enter_id; simpl; tauto.
  - apply move_none; simpl; tauto.
  - apply move_none; simpl; tauto.
  - apply move_none; simpl; tauto.
  - destruct (release_id_lock c Hlocks t _ Ht I) as [Hheld Hrel].
    rewrite Hrel in Hs. simplify_eq. apply move_leave_id; simpl; tauto.
  - destruct (acquire t (write_lock c)) as [l|] eqn:Hacq; simplify_eq.
    eapply (acquire_write_lock c Hlocks t _ Ht) in Hacq as [Hfree ->]; [|by auto].
    apply move_enter_write; simpl; tauto.
  - destruct (PyDict.contains item_id (items (store c))); simplify_eq;
      apply move_none; simpl; tauto.
  - apply move_none; simpl; tauto.
  - destruct (release_write_lock c Hlocks t _ Ht I) as [Hheld Hrel].
    rewrite Hrel in Hs. simplify_eq. apply move_leave_write; simpl; tauto.
  - destruct (PyDict.remove item_id (items (store c))); simplify_eq;
      apply move_none; simpl; tauto.
  - destruct (PyDict.get item_id (items (store c))); simplify_eq;
      apply move_none; simpl; tauto.
  - apply move_none; simpl; tauto.
Qed.

Lemma locks_ok_step t c : locks_ok c -> locks_ok (step t c).
Proof.
  intros Hlocks. destruct (step_unfold t c)
    as [->|(th & s & il & wl & th' & Ht & Hs & ->)]; [done|].
  pose proof (step_thread_lock_move _ _ _ _ _ _ _ Hlocks Ht Hs) as Hmove.
  pose proof Hlocks as (Hsec & Hido & Hwo).
  assert (t < length (threads c))%nat as Hlen by (by eapply lookup_lt_Some).
  assert (forall x, <[t:=th']> (threads c) !! t = Some x -> x = th') as Hself.
  { intros x. rewrite list_lookup_insert_eq by done. congruence. }
  split_and!; cbn [threads id_lock write_lock].
  - intros t0 th0 [[-> ->]|[Hne Hl]]%lookup_step_Some.
    + destruct (Hsec t th Ht) as [Hi Hw].
      destruct Hmove; subst; split; simpl; intros; try tauto; naive_solver.
    + destruct (Hsec t th Ht) as [Hi Hw].
      destruct (Hsec t0 th0 Hl) as [Hi0 Hw0].
      destruct Hmove; subst; split; intros Hin;
        try (specialize (Hi0 Hin)); try (specialize (Hw0 Hin)); simpl;
        congruence.
  - intros o n Ho.
    destruct Hmove; subst.
    + destruct (Hido o n Ho) as (th0 & Hth0 & Hin0).
      destruct (decide (o = t)) as [->|Hne].
      * exists th'. rewrite list_lookup_insert_eq by done. split; [done|].
        assert (th0 = th) by congruence. subst. tauto.
      * exists th0. by rewrite list_lookup_insert_ne.
    + injection Ho as <- <-. exists th'.
      by rewrite list_lookup_insert_eq.
    + done.
    + destruct (Hido o n Ho) as (th0 & Hth0 & Hin0).
      destruct (decide (o = t)) as [->|Hne].
      * assert (th0 = th) by congruence. subst. tauto.
      * exists th0. by rewrite list_lookup_insert_ne.
    + destruct (Hido o n Ho) as (th0 & Hth0 & Hin0).
      destruct (decide (o = t)) as [->|Hne].
      * assert (th0 = th) by congruence. subst. tauto.
      * exists th0. by rewrite list_lookup_insert_ne.
  - intros o n Ho.
    destruct Hmove; subst.
    + destruct (Hwo o n Ho) as (th0 & Hth0 & Hin0).
      destruct (decide (o = t)) as [->|Hne].
      * exists th'. rewrite list_lookup_insert_eq by done. split; [done|].
        assert (th0 = th) by congruence. subst. tauto.
      * exists th0. by rewrite list_lookup_insert_ne.
    + destruct (Hwo o n Ho) as (th0 & Hth0 & Hin0).
      destruct (decide (o = t)) as [->|Hne].
      * assert (th0 = th) by congruence. subst. tauto.
      * exists th0. by rewrite list_lookup_insert_ne.
    + destruct (Hwo o n Ho) as (th0 & Hth0 & Hin0).
      destruct (decide (o = t)) as [->|Hne].
      * assert (th0 = th) by congruence. subst. tauto.
      * exists th0. by rewrite list_lookup_insert_ne.
    + injection Ho as <- <-. exists th'.
      by rewrite list_lookup_insert_eq.
    + done.
Qed.

(** *** The store *)

Lemma thread_inv_frame s s' th :
  thread_inv s th ->
  current_id s <= current_id s' ->
  (forall kwargs n, at_pc th = NewIdStore kwargs n ->
                    current_id s' = current_id s) ->
  (forall i, pending (at_pc th) = Some i ->
             i ∉ PyDict.keys (items s) -> i ∉ PyDict.keys (items s')) ->
  thread_inv s' th.
Proof.
  intros [] Hle Hsame Hkeys. split; try done.
  - intros kwargs n Hpc. rewrite (Hsame _ _ Hpc). eauto.
  - intros i Hi. destruct (inv_pending0 i Hi). split; [lia | auto].
Qed.

(** A step that leaves the store as it is and gives its thread no new id. *)
Lemma inv_local_step t c th il wl th' :
  inv c ->
  threads c !! t = Some th ->
  thread_inv (store c) th' ->
  (forall i, pending (at_pc th') = Some i -> pending (at_pc th) = Some i) ->
  (forall kwargs, at_pc th' <> NewIdRead kwargs) ->
  inv (mkConfig (store c) il wl (<[t:=th']> (threads c))).
Proof.
  intros [] Ht Hth' Hpend Hread. split; cbn [store threads]; try done.
  - intros t0 th0 [[-> ->]|[Hne Hl]]%lookup_step_Some; eauto.
  - intros t0 th0 kwargs [[-> ->]|[Hne Hl]]%lookup_step_Some Hpc.
    { by destruct (Hread kwargs). }
    destruct (inv_read0 t0 th0 kwargs Hl Hpc) as [Hk Hp]. split; [done|].
    intros t1 th1 i [[-> ->]|[Hne1 Hl1]]%lookup_step_Some Hi; eauto.
  - intros t0 t1 th0 th1 i
      [[-> ->]|[Hne0 Hl0]]%lookup_step_Some
      [[-> ->]|[Hne1 Hl1]]%lookup_step_Some Hi0 Hi1; eauto.
Qed.

Lemma thread_inv_finish s th r :
  thread_inv s th -> answer_ok r -> thread_inv s (finish r th).
Proof.
  intros [] Hr. split; cbn [at_pc todo results finish]; try done.
  apply Forall_app. split; [done | by apply Forall_singleton].
Qed.

Lemma record_ok_has_id k item : record_ok (k, item) -> has_id item.
Proof. intros [Hid _]. by exists k. Qed.

Lemma records_ok_get s k item :
  records_ok s -> PyDict.get k (items s) = Some item -> has_id item.
Proof.
  intros [_ Hrec] Hget%PyDictFacts.get_Some_elem.
  rewrite Forall_forall in Hrec. by apply (record_ok_has_id k), Hrec.
Qed.

Lemma record_ok_spec i kwargs :
  (exists summary description, kwargs = spec_fields summary description) ->
  record_ok (i, PyDict.update [("id"%string, VInt i)] kwargs).
Proof.
  intros (summary & description & ->). split; [done | by eexists].
Qed.

Lemma distinct_step t (l : list thread) th th' :
  (forall t0 t1 th0 th1 i,
      l !! t0 = Some th0 -> l !! t1 = Some th1 ->
      pending (at_pc th0) = Some i -> pending (at_pc th1) = Some i -> t0 = t1) ->
  l !! t = Some th ->
  (forall i, pending (at_pc th') = Some i -> pending (at_pc th) = Some i) ->
  forall t0 t1 th0 th1 i,
    <[t:=th']> l !! t0 = Some th0 -> <[t:=th']> l !! t1 = Some th1 ->
    pending (at_pc th0) = Some i -> pending (at_pc th1) = Some i -> t0 = t1.
Proof.
  intros Hd Ht Hpend t0 t1 th0 th1 i
    [[-> ->]|[Hne0 Hl0]]%lookup_step_Some
    [[-> ->]|[Hne1 Hl1]]%lookup_step_Some Hi0 Hi1; eauto.
Qed.

Lemma records_ok_items s s' :
  items s' = items s -> records_ok s -> records_ok s'.
Proof. unfold records_ok. by intros ->. Qed.

(** The store of [new_id]: the counter goes up by one. *)
Lemma inv_counter_step t c kwargs n td rs il wl :
  locks_ok c -> inv c ->
  threads c !! t = Some (mkThread (NewIdStore kwargs n) td rs) ->
  inv (mkConfig (mkItemStore (items (store c)) (n + 1)) il wl
         (<[t:=mkThread (NewIdRead kwargs) td rs]> (threads c))).
Proof.
  intros Hlocks Hinv Ht. pose proof Hinv as [].
  pose proof (inv_threads0 t _ Ht) as Hth.
  assert (n = current_id (store c)) as -> by (by eapply (inv_loaded _ _ Hth)).
  assert (forall t0 th0, t0 <> t -> threads c !! t0 = Some th0 ->
            ~ in_id_section (at_pc th0)) as Halone.
  { intros t0 th0 Hne Hl Hin.
    by apply Hne, (id_section_alone c Hlocks t _ Ht t0 th0). }
  split; cbn [store threads items current_id].
  - by eapply records_ok_items.
  - eapply Forall_impl; [done|]. simpl. intros; lia.
  - intros t0 th0 [[-> ->]|[Hne Hl]]%lookup_step_Some.
    + destruct Hth. by split.
    + eapply thread_inv_frame; [eauto | cbn; lia | | done].
      intros kw m Hpc. destruct (Halone t0 th0 Hne Hl). by rewrite Hpc.
  - intros t0 th0 kw [[-> ->]|[Hne Hl]]%lookup_step_Some Hpc.
    + split; [eapply Forall_impl; [done|]; simpl; intros; lia|].
      intros t1 th1 i [[-> ->]|[Hne1 Hl1]]%lookup_step_Some Hi; [done|].
      destruct (inv_pending _ _ (inv_threads0 _ _ Hl1) i Hi). lia.
    + destruct (Halone t0 th0 Hne Hl). by rewrite Hpc.
  - by eapply distinct_step.
Qed.

(** The read of [new_id]: the thread obtains the value of the counter. *)
Lemma inv_read_step t c kwargs td rs il wl :
  locks_ok c -> inv c ->
  threads c !! t = Some (mkThread (NewIdRead kwargs) td rs) ->
  inv (mkConfig (store c) il wl
         (<[t:=mkThread (NewIdRelease kwargs (current_id (store c))) td rs]>
            (threads c))).
Proof.
  intros Hlocks Hinv Ht. pose proof Hinv as [].
  pose proof (inv_threads0 t _ Ht) as Hth.
  destruct (inv_read0 t _ kwargs Ht eq_refl) as [Hkeys Hpend].
  assert (forall t0 th0, t0 <> t -> threads c !! t0 = Some th0 ->
            ~ in_id_section (at_pc th0)) as Halone.
  { intros t0 th0 Hne Hl Hin.
    by apply Hne, (id_section_alone c Hlocks t _ Ht t0 th0). }
  split; cbn [store threads items current_id]; try done.
  - intros t0 th0 [[-> ->]|[Hne Hl]]%lookup_step_Some; [|eauto].
    destruct Hth. split; cbn in *; try done.
    intros i [= <-]. split; [lia|]. intros Hin.
    rewrite Forall_forall in Hkeys. apply Hkeys in Hin. lia.
  - intros t0 th0 kw [[-> ->]|[Hne Hl]]%lookup_step_Some Hpc; [done|].
    destruct (Halone t0 th0 Hne Hl). by rewrite Hpc.
  - intros t0 t1 th0 th1 i
      [[-> ->]|[Hne0 Hl0]]%lookup_step_Some
      [[-> ->]|[Hne1 Hl1]]%lookup_step_Some Hi0 Hi1; eauto.
    + injection Hi0 as <-. specialize (Hpend _ _ _ Hl1 Hi1). lia.
    + injection Hi1 as <-. specialize (Hpend _ _ _ Hl0 Hi0). lia.
Qed.

(** The insertion of [add_item]. *)
Lemma inv_insert_step t c item_id item td rs il wl :
  inv c ->
  threads c !! t = Some (mkThread (AddInsert item_id item) td rs) ->
  inv (mkConfig
         (mkItemStore (PyDict.set item_id item (items (store c)))
                      (current_id (store c)))
         il wl (<[t:=mkThread (AddRelease (Ok item)) td rs]> (threads c))).
Proof.
  intros Hinv Ht. pose proof Hinv as [].
  pose proof (inv_threads0 t _ Ht) as Hth.
  destruct (inv_pending _ _ Hth item_id eq_refl) as [Hle Hout].
  pose proof (inv_item _ _ Hth (item_id, item) eq_refl) as Hitem.
  destruct inv_records0 as [Hwf Hrec].
  rewrite PyDictFacts.set_absent by done.
  split; cbn [store threads items current_id].
  - split; cbn [items].
    + rewrite <- (PyDictFacts.set_absent item_id item) by done.
      by apply PyDictFacts.wf_set.
    + apply Forall_app. split; [done | by apply Forall_singleton].
  - rewrite PyDictFacts.keys_app. apply Forall_app. split; [done|].
    by apply Forall_singleton.
  - intros t0 th0 [[-> ->]|[Hne Hl]]%lookup_step_Some.
    + destruct Hth. split; cbn in *; try done. intros r [= <-].
      eexists. split; [done | by eapply record_ok_has_id].
    + eapply thread_inv_frame; [eauto | cbn; lia | done |].
      cbn [items]. intros i Hi Hi_out. rewrite PyDictFacts.keys_app.
      intros [Hin|Hin%list_elem_of_singleton]%elem_of_app; [done|].
      subst i. by apply Hne, (inv_distinct0 t0 t th0 _ item_id Hl Ht).
  - intros t0 th0 kw [[-> ->]|[Hne Hl]]%lookup_step_Some Hpc; [done|].
    destruct (inv_read0 t0 th0 kw Hl Hpc) as [Hkeys Hpend]. split.
    + rewrite PyDictFacts.keys_app. apply Forall_app. split; [done|].
      apply Forall_singleton. by apply (Hpend t _ item_id Ht).
    + intros t1 th1 i [[-> ->]|[Hne1 Hl1]]%lookup_step_Some Hi; [done|eauto].
  - by eapply distinct_step.
Qed.

(** The deletion of [delete_item]. *)
Lemma inv_delete_step t c item_id d td rs il wl :
  inv c ->
  threads c !! t = Some (mkThread (Delete item_id) td rs) ->
  PyDict.remove item_id (items (store c)) = Some d ->
  inv (mkConfig (mkItemStore d (current_id (store c))) il wl
         (<[t:=finish (Ok ANone) (mkThread (Delete item_id) td rs)]>
            (threads c))).
Proof.
  intros Hinv Ht Hr. pose proof Hinv as [].
  pose proof (inv_threads0 t _ Ht) as Hth.
  destruct inv_records0 as [Hwf Hrec].
  pose proof (PyDictFacts.remove_Some_keys _ _ _ Hr) as Hsub.
  assert (forall P, Forall P (PyDict.keys (items (store c))) ->
                    Forall P (PyDict.keys d)) as Hall.
  { intros P HP. rewrite Forall_forall in HP |- *. auto. }
  split; cbn [store threads items current_id].
  - split; cbn [items]; [by eapply PyDictFacts.wf_remove|].
    apply PyDictFacts.remove_Some_sublist, sublist_subseteq in Hr.
    rewrite Forall_forall in Hrec |- *. auto.
  - auto.
  - intros t0 th0 [[-> ->]|[Hne Hl]]%lookup_step_Some.
    + apply thread_inv_finish; [|done]. destruct Hth. by split.
    + eapply thread_inv_frame; [eauto | cbn; lia | done |].
      cbn [items]. intros i Hi Hi_out Hin. auto.
  - intros t0 th0 kw [[-> ->]|[Hne Hl]]%lookup_step_Some Hpc; [done|].
    destruct (inv_read0 t0 th0 kw Hl Hpc) as [Hkeys Hpend]. split; [auto|].
    intros t1 th1 i [[-> ->]|[Hne1 Hl1]]%lookup_step_Some Hi; [done|eauto].
  - by eapply distinct_step.
Qed.

Ltac local_step Hinv Ht :=
  eapply (inv_local_step _ _ _ _ _ _ Hinv Ht);
  [ | cbn; try done; eauto | done ].

Lemma inv_step_thread t c th s il wl th' :
  locks_ok c -> inv c ->
  threads c !! t = Some th ->
  step_thread t c th = Some (s, il, wl, th') ->
  inv (mkConfig s il wl (<[t:=th']> (threads c))).
Proof.
  intros Hlocks Hinv Ht Hs.
  pose proof (inv_threads c Hinv t th Ht) as Hth.
  destruct th as [p td rs]. unfold step_thread in Hs.
  cbn [at_pc todo results] in Hs.
  destruct p; simplify_eq/=.
  - (* a call begins *)
    destruct td as [|cl rest]; simplify_eq.
    eapply (inv_local_step _ _ _ _ _ _ Hinv Ht); [ | by destruct cl..].
    destruct Hth. cbn in *. apply Forall_cons in inv_todo0 as [Hcl Hrest].
    split; cbn [at_pc todo results]; try done;
      destruct cl; cbn; try done. by intros ? [= <-].
  - destruct (acquire t (id_lock c)) as [l|] eqn:Hacq; simplify_eq.
    local_step Hinv Ht. destruct Hth. by split.
  - local_step Hinv Ht. destruct Hth. split; cbn in *; try done.
    by intros ? ? [= _ <-].
  - by apply inv_counter_step.
  - by apply inv_read_step.
  - destruct (release t (id_lock c)) as [l|] eqn:Hrel; simplify_eq.
    + local_step Hinv Ht.
      destruct Hth. split; cbn in *; try done.
      intros kv [= <-]. apply record_ok_spec. eauto.
    + local_step Hinv Ht. by apply thread_inv_finish.
  - destruct (acquire t (write_lock c)) as [l|] eqn:Hacq; simplify_eq.
    local_step Hinv Ht. destruct Hth. by split.
  - destruct (PyDict.contains item_id (items (store c))) eqn:Hc; simplify_eq.
    + destruct Hth. destruct (inv_pending0 item_id eq_refl) as [_ Hout].
      apply PyDictFacts.contains_true in Hc. done.
    + local_step Hinv Ht. destruct Hth. by split.
  - by apply inv_insert_step.
  - destruct (inv_release _ _ Hth r eq_refl) as (item & -> & Hid).
    destruct (release t (write_lock c)) as [l|] eqn:Hrel; simplify_eq;
      local_step Hinv Ht; by apply thread_inv_finish.
  - destruct (PyDict.remove item_id (items (store c))) as [d|] eqn:Hr;
      simplify_eq.
    + by apply inv_delete_step.
    + local_step Hinv Ht. by apply thread_inv_finish.
  - destruct (PyDict.get item_id (items (store c))) as [item|] eqn:Hget;
      simplify_eq; local_step Hinv Ht; apply thread_inv_finish; try done.
    eapply records_ok_get; [by apply Hinv | done].
  - local_step Hinv Ht. destruct Hth. by split.
Qed.

Lemma inv_step t c : locks_ok c -> inv c -> inv (step t c).
Proof.
  intros Hlocks Hinv. destruct (step_unfold t c)
    as [->|(th & s & il & wl & th' & Ht & Hs & ->)]; [done|].
  by eapply inv_step_thread.
Qed.

Lemma init_lookup programs t th :
  threads (init programs) !! t = Some th ->
  exists calls, programs !! t = Some calls /\ th = mkThread Idle calls [].
Proof.
  unfold init. cbn [threads]. rewrite list_lookup_fmap.
  destruct (programs !! t) as [calls|]; [|done]. intros [= <-]. eauto.
Qed.

Lemma locks_ok_init programs : locks_ok (init programs).
Proof.
  split_and!; [|done..].
  intros t th (calls & _ & ->)%init_lookup. by split.
Qed.

Lemma inv_init programs :
  Forall (Forall spec_call) programs -> inv (init programs).
Proof.
  intros Hspec. split; cbn [store init].
  - apply records_ok_new_store.
  - apply Forall_nil_2.
  - intros t th (calls & Hcalls & ->)%init_lookup. split; try done.
    rewrite Forall_forall in Hspec. apply Hspec.
    by eapply list_elem_of_lookup_2.
  - by intros t th kw (calls & _ & ->)%init_lookup.
  - by intros t t' th th' i (calls & _ & ->)%init_lookup.
Qed.

Lemma run_schedule_inv sched c :
  locks_ok c -> inv c ->
  locks_ok (run_schedule sched c) /\ inv (run_schedule sched c).
Proof.
  revert c. induction sched as [|t sched IH]; intros c Hlocks Hinv; [done|].
  cbn. apply IH; [by apply locks_ok_step | by apply inv_step].
Qed.

(** *** A thread on its own runs the sequential operation *)

Lemma step_at t c th s il wl th' :
  threads c !! t = Some th ->
  step_thread t c th = Some (s, il, wl, th') ->
  step t c = mkConfig s il wl (<[t:=th']> (threads c)).
Proof. intros Ht Hs. unfold step. by rewrite Ht, Hs. Qed.

Lemma solo_add_item t s l kwargs rest rs :
  (t < length l)%nat ->
  PyDict.contains (current_id s + 1) (items s) = false ->
  run_schedule (replicate 10 t)
    (mkConfig s None None (<[t:=mkThread Idle (AddItem kwargs :: rest) rs]> l))
  = mkConfig (add_item kwargs s).2 None None
      (<[t:=mkThread Idle rest (rs ++ [answer_item (add_item kwargs s).1])]> l).
Proof.
  intros Ht Hfresh. rewrite add_item_eq. cbn zeta. rewrite Hfresh.
  cbn [replicate run_schedule foldl fst snd answer_item].
  repeat
    match goal with
    | |- context [step t (mkConfig ?s0 ?il ?wl ?ths)] =>
        erewrite (step_at t (mkConfig s0 il wl ths));
        [ | cbn [threads]; by rewrite list_lookup_insert_eq
          | unfold step_thread;
            cbn [at_pc todo results store id_lock write_lock entry acquire
                 release goto finish items current_id];
            rewrite ?decide_True, ?Hfresh by done; reflexivity ];
        cbn [threads]; rewrite list_insert_insert_eq
    end.
  reflexivity.
Qed.

Lemma solo_delete_item t s l item_id rest rs :
  (t < length l)%nat ->
  run_schedule [t; t]
    (mkConfig s None None (<[t:=mkThread Idle (DeleteItem item_id :: rest) rs]> l))
  = mkConfig (delete_item item_id s).2 None None
      (<[t:=mkThread Idle rest
              (rs ++ [match (delete_item item_id s).1 with
                      | Ok _ => Ok ANone
                      | Raise e => Raise e
                      end])]> l).
Proof.
  intros Ht. rewrite delete_item_eq.
  cbn [run_schedule foldl].
  match goal with
  | |- context [step t (mkConfig ?s0 ?il ?wl ?ths)] =>
      erewrite (step_at t (mkConfig s0 il wl ths));
      [ | cbn [threads]; by rewrite list_lookup_insert_eq | reflexivity ]
  end.
  cbn [threads]. rewrite list_insert_insert_eq.
  destruct (PyDict.remove item_id (items s)) as [d|] eqn:Hr.
  - erewrite step_at;
      [ | cbn [threads]; by rewrite list_lookup_insert_eq
        | unfold step_thread; cbn; rewrite Hr; reflexivity ].
    cbn [threads]. by rewrite list_insert_insert_eq.
  - erewrite step_at;
      [ | cbn [threads]; by rewrite list_lookup_insert_eq
        | unfold step_thread; cbn; rewrite Hr; reflexivity ].
    cbn [threads]. rewrite list_insert_insert_eq. by destruct s.
Qed.

End ConcurrentFacts.

(** C9.  The code does not serialize the accesses to the item collection.
    Three threads share a fresh store.  Thread 0 is inside
    [add_item(summary='a', description='b')]: it has inserted record 1 and
    still holds the write lock.  Thread 1, which holds no lock, is about to
    read the collection in [find_item(1)], and its step does read the
    record.  Thread 2, which holds no lock either, is about to write the
    collection in [delete_item(1)], and its step does remove the record:
    [delete_item] takes neither lock, where [add_item] takes the write lock
    for its own write. *)
Lemma collection_access_unlocked :
  Concurrent.write_lock Concurrent.racy_config = Some (0%nat, 1%nat) /\
  Concurrent.id_lock Concurrent.racy_config = None /\
  Concurrent.threads Concurrent.racy_config !! 0%nat
  = Some (Concurrent.mkThread
            (Concurrent.AddRelease
               (Ok [("id"%string, VInt 1); ("summary"%string, VStr "a");
                    ("description"%string, VStr "b")])) [] []) /\
  Concurrent.threads Concurrent.racy_config !! 1%nat
  = Some (Concurrent.mkThread (Concurrent.Find 1) [] []) /\
  Concurrent.threads Concurrent.racy_config !! 2%nat
  = Some (Concurrent.mkThread (Concurrent.Delete 1) [] []) /\
  PyDict.keys (items (Concurrent.store Concurrent.racy_config)) = [1] /\
  Concurrent.threads (Concurrent.step 1 Concurrent.racy_config) !! 1%nat
  = Some (Concurrent.mkThread Concurrent.Idle []
            [Ok (Concurrent.AItem
                   [("id"%string, VInt 1); ("summary"%string, VStr "a");
                    ("description"%string, VStr "b")])]) /\
  items (Concurrent.store (Concurrent.step 2 Concurrent.racy_config)) = [] /\
  Concurrent.write_lock (Concurrent.step 2 Concurrent.racy_config)
  = Some (0%nat, 1%nat) /\
  ~ Concurrent.serialized Concurrent.racy_config.
Proof.
  split_and!; try reflexivity.
  intros Hser.
  destruct (Hser 1%nat _ eq_refl I) as [[n Hn]|[n Hn]];
    vm_compute in Hn; discriminate Hn.
Qed.

(** * Further properties of the store *)

Section store_more.
Import PyDict PyDictFacts.

Lemma remove_snoc {K V : Type} `{EqDecision K} (k : K) (v : V)
    (d : list (K * V)) :
  k ∉ keys d -> remove k (d ++ [(k, v)]) = Some d.
Proof.
  induction d as [|[k' v'] d IH]; simpl.
  - intros _. by rewrite decide_True.
  - rewrite not_elem_of_cons. intros [Hne Hd].
    rewrite decide_False by done. by rewrite IH.
Qed.

Lemma filter_ne_absent {K : Type} `{EqDecision K} (k : K) (l : list K) :
  k ∉ l -> filter (fun k' => k' <> k) l = l.
Proof.
  induction l as [|k' l IH]; [done|]. rewrite not_elem_of_cons.
  intros [Hne Hl]. rewrite filter_cons_True by congruence. by rewrite IH.
Qed.

Lemma remove_keys_filter {K V : Type} `{EqDecision K} (k : K)
    (d d' : list (K * V)) :
  wf d -> remove k d = Some d' ->
  keys d' = filter (fun k' => k' <> k) (keys d).
Proof.
  unfold wf. revert d'. induction d as [|[k0 v0] d IH]; simpl; intros d'; [done|].
  rewrite NoDup_cons. intros [Hk0 Hd]. destruct (decide (k = k0)) as [->|Hne].
  - intros [= <-]. rewrite filter_cons_False by (by intros []).
    symmetry. by apply filter_ne_absent.
  - destruct (remove k d) as [d''|] eqn:Hr; [|done]. intros [= <-].
    rewrite filter_cons_True by congruence. simpl. f_equal. by apply IH.
Qed.

Lemma wf_update {K V : Type} `{EqDecision K} (d e : list (K * V)) :
  wf d -> wf (update d e).
Proof.
  revert d. induction e as [|[k v] e IH]; intros d Hd; simpl; [done|].
  by apply IH, wf_set.
Qed.

Lemma get_update {K V : Type} `{EqDecision K} (k : K) (d e : list (K * V)) :
  wf e ->
  get k (update d e) = match get k e with Some v => Some v | None => get k d end.
Proof.
  intros He. destruct (get k e) as [v|] eqn:Hk.
  - by apply get_update_present.
  - apply get_update_absent. by apply get_None.
Qed.

Lemma mapM_snoc {A B : Type} (f : A -> option B) (l : list A) (k : list B)
    (x : A) (y : B) :
  mapM f l = Some k -> f x = Some y -> mapM f (l ++ [x]) = Some (k ++ [y]).
Proof.
  rewrite !mapM_Some. intros Hl Hx. apply Forall2_app; [done|].
  by apply Forall2_cons.
Qed.

Lemma run_current_id cs s :
  bounded s ->
  current_id (run cs s) = current_id s + Z.of_nat (count_adds cs).
Proof.
  revert s. induction cs as [|c cs IH]; intros s Hb; simpl; [lia|].
  rewrite (IH _ (exec_bounded c s Hb)). destruct c; cbn [count_adds exec].
  - rewrite add_item_bounded by done. cbn [snd current_id]. lia.
  - rewrite delete_item_eq. by destruct (remove item_id (items s)).
  - by rewrite find_item_state.
  - by rewrite all_items_state.
Qed.

(** An id that lies below the counter and is no key stays so. *)
Lemma exec_gone k c s :
  bounded s -> k <= current_id s -> k ∉ keys (items s) ->
  k <= current_id (exec c s) /\ k ∉ keys (items (exec c s)).
Proof.
  intros Hb Hle Hout. destruct c; simpl.
  - rewrite add_item_bounded by done. simpl. split; [lia|].
    rewrite keys_app. intros [Hin|Hin%list_elem_of_singleton]%elem_of_app;
      [done | simpl in Hin; lia].
  - rewrite delete_item_eq.
    destruct (remove item_id (items s)) as [d|] eqn:Hr; [|done]. simpl.
    split; [done|]. intros Hin. by apply Hout, (remove_Some_keys _ _ _ Hr).
  - by rewrite find_item_state.
  - by rewrite all_items_state.
Qed.

Lemma run_gone k cs s :
  bounded s -> k <= current_id s -> k ∉ keys (items s) ->
  k ∉ keys (items (run cs s)).
Proof.
  revert s. induction cs as [|c cs IH]; intros s Hb Hle Hout; [done|].
  simpl. destruct (exec_gone k c s Hb Hle Hout).
  apply IH; [by apply exec_bounded | done..].
Qed.
End store_more.

(** X1.  The id counter is the number of calls of [add_item] made since the
    store was created, whatever deletions, lookups and listings were made
    in between and whether they failed or not; every key of the store lies
    between 1 and the counter. *)
Theorem counter_counts_adds (cs : list call) :
  let s := run cs new_store in
  current_id s = Z.of_nat (count_adds cs) /\
  Forall (fun k => 1 <= k <= Z.of_nat (count_adds cs)) (PyDict.keys (items s)).
Proof.
  intros s. subst s.
  pose proof (run_current_id cs new_store bounded_new_store) as Hc.
  simpl in Hc. split; [done|].
  destruct (run_bounded cs new_store bounded_new_store) as (_ & _ & Hk).
  by rewrite Hc in Hk.
Qed.

(** X2.  An id that has been deleted never comes back: after a successful
    [delete_item], whatever calls follow, the id is no key of the store,
    [find_item] on it raises [KeyError], and so does [delete_item]. *)
Theorem deleted_id_never_returns (s : ItemStore) (k : Z) (cs : list call) :
  reachable s ->
  (delete_item k s).1 = Ok tt ->
  let s' := run cs (delete_item k s).2 in
  (k ∉ PyDict.keys (items s')) /\
  find_item k s' = (Raise KeyError, s') /\
  delete_item k s' = (Raise KeyError, s').
Proof.
  intros Hr Hdel s'.
  pose proof (reachable_bounded s Hr) as Hb.
  pose proof (exec_bounded (DeleteItem k) s Hb) as Hb'. simpl in Hb'.
  assert (k ∉ PyDict.keys (items s')) as Hout.
  { apply run_gone; [done| |].
    - rewrite delete_item_eq in Hdel |- *.
      destruct (PyDict.remove k (items s)) as [d|] eqn:Hrem; [|done]. simpl.
      destruct Hb as (_ & _ & Hk). rewrite Forall_forall in Hk.
      assert (k ∈ PyDict.keys (items s)) as Hin.
      { destruct (decide (k ∈ PyDict.keys (items s))) as [|Hn]; [done|].
        apply PyDictFacts.remove_None in Hn. congruence. }
      apply Hk in Hin. lia.
    - rewrite delete_item_eq in Hdel |- *.
      destruct (PyDict.remove k (items s)) as [d|] eqn:Hrem; [|done]. simpl.
      destruct Hb as (Hwf & _).
      by eapply PyDictFacts.remove_Some_absent. }
  split_and!; [done| |].
  - rewrite find_item_eq. by apply PyDictFacts.get_None in Hout as ->.
  - rewrite delete_item_eq. by apply PyDictFacts.remove_None in Hout as ->.
Qed.

Lemma deleted_id_never_returns_witness :
  find_item 1
    (run [AddItem (spec_fields (VStr "c") (VStr "d")); AllItems]
       (delete_item 1
          (exec (AddItem (spec_fields (VStr "a") (VStr "b"))) new_store)).2)
  = (Raise KeyError,
     run [AddItem (spec_fields (VStr "c") (VStr "d")); AllItems]
       (delete_item 1
          (exec (AddItem (spec_fields (VStr "a") (VStr "b"))) new_store)).2).
Proof.
  apply (deleted_id_never_returns
           (exec (AddItem (spec_fields (VStr "a") (VStr "b"))) new_store) 1
           [AddItem (spec_fields (VStr "c") (VStr "d")); AllItems]
           (reachable_exec _ _ reachable_new_store) eq_refl).
Defined.

(** X3.  [add_item] appends: the new key comes last in the order of the
    store, the keys that were there stay in their order, and every other
    id is looked up as before. *)
Theorem add_item_keeps_others (s : ItemStore) (kwargs : info) :
  reachable s ->
  let s' := (add_item kwargs s).2 in
  PyDict.keys (items s') = PyDict.keys (items s) ++ [current_id s + 1] /\
  forall k, k <> current_id s + 1 -> (find_item k s').1 = (find_item k s).1.
Proof.
  intros Hb%reachable_bounded s'. subst s'.
  pose proof (bounded_fresh s Hb) as Hfresh.
  rewrite add_item_bounded by done. cbn [snd]. split.
  - cbn [items]. by rewrite PyDictFacts.keys_app.
  - intros k Hk. rewrite !find_item_eq. cbn [items].
    rewrite <- (PyDictFacts.set_absent (current_id s + 1)) by done.
    rewrite PyDictFacts.get_set_ne by done.
    by destruct (PyDict.get k (items s)).
Qed.

Lemma add_item_keeps_others_witness :
  PyDict.keys
    (items (add_item (spec_fields (VStr "c") (VStr "d"))
              (exec (AddItem (spec_fields (VStr "a") (VStr "b"))) new_store)).2)
  = [1; 2].
Proof.
  apply (add_item_keeps_others
           (exec (AddItem (spec_fields (VStr "a") (VStr "b"))) new_store)
           (spec_fields (VStr "c") (VStr "d"))
           (reachable_exec _ _ reachable_new_store)).
Defined.

(** X4.  [delete_item] removes its key and nothing else: the other keys
    stay, in their order, every other id is looked up as before, and the
    counter is not moved, whether the call returns or raises. *)
Theorem delete_item_keeps_others (s : ItemStore) (k : Z) :
  reachable s ->
  let s' := (delete_item k s).2 in
  PyDict.keys (items s') = filter (fun k' => k' <> k) (PyDict.keys (items s)) /\
  current_id s' = current_id s /\
  forall k', k' <> k -> (find_item k' s').1 = (find_item k' s).1.
Proof.
  intros Hb%reachable_bounded s'. subst s'. destruct Hb as (Hwf & _).
  rewrite delete_item_eq.
  destruct (PyDict.remove k (items s)) as [d|] eqn:Hr; cbn [snd items current_id].
  - split_and!; [by apply remove_keys_filter | done |].
    intros k' Hk'. rewrite !find_item_eq. cbn [items].
    rewrite (PyDictFacts.get_remove_ne k k' _ _ (not_eq_sym Hk') Hr).
    by destruct (PyDict.get k' (items s)).
  - apply PyDictFacts.remove_None in Hr.
    split_and!; [by rewrite filter_ne_absent | done | done].
Qed.

Lemma delete_item_keeps_others_witness :
  PyDict.keys
    (items (delete_item 1
              (run [AddItem (spec_fields (VStr "a") (VStr "b"));
                    AddItem (spec_fields (VStr "c") (VStr "d"))] new_store)).2)
  = [2].
Proof.
  apply (delete_item_keeps_others
           (run [AddItem (spec_fields (VStr "a") (VStr "b"));
                 AddItem (spec_fields (VStr "c") (VStr "d"))] new_store) 1).
  by exists [AddItem (spec_fields (VStr "a") (VStr "b"));
             AddItem (spec_fields (VStr "c") (VStr "d"))].
Defined.

(** X5.  Deleting the item that [add_item] has just created gives back the
    collection as it was before the creation; the id stays used, the
    counter is not moved back. *)
Theorem add_then_delete (s : ItemStore) (kwargs : info) :
  reachable s ->
  delete_item (current_id s + 1) (add_item kwargs s).2
  = (Ok tt, mkItemStore (items s) (current_id s + 1)).
Proof.
  intros Hb%reachable_bounded.
  pose proof (bounded_fresh s Hb) as Hfresh.
  rewrite add_item_bounded by done. cbn [snd].
  rewrite delete_item_eq. cbn [items current_id].
  by rewrite remove_snoc.
Qed.

Lemma add_then_delete_witness :
  delete_item 1 (add_item (spec_fields (VStr "a") (VStr "b")) new_store).2
  = (Ok tt, mkItemStore [] 1).
Proof. apply (add_then_delete new_store _ reachable_new_store). Defined.

(** X6.  [add_item] never raises in a state of the store, whatever the
    fields: the record it returns is a dictionary that holds every field
    of the caller with its value, the allocated id under [id] when the
    caller gives none, and nothing else. *)
Theorem add_item_merges (s : ItemStore) (kwargs : info) :
  reachable s ->
  PyDict.wf kwargs ->
  exists item s',
    add_item kwargs s = (Ok item, s') /\
    PyDict.wf item /\
    (forall k v, PyDict.get k kwargs = Some v -> PyDict.get k item = Some v) /\
    ("id"%string ∉ PyDict.keys kwargs ->
     id_of item = Some (VInt (current_id s + 1))) /\
    (forall k, k <> "id"%string -> PyDict.get k kwargs = None ->
               PyDict.get k item = None).
Proof.
  intros Hb%reachable_bounded Hwf. eexists _, _.
  split; [by apply add_item_bounded|]. split_and!.
  - apply wf_update. unfold PyDict.wf. simpl. apply NoDup_singleton.
  - intros k v Hk. by rewrite get_update, Hk.
  - intros Hid. unfold id_of. by rewrite PyDictFacts.get_update_absent.
  - intros k Hne Hk. rewrite get_update, Hk by done. simpl.
    by rewrite decide_False.
Qed.

Lemma add_item_merges_witness :
  exists item s',
    add_item [("summary"%string, VStr "walk dog")] new_store = (Ok item, s') /\
    id_of item = Some (VInt 1) /\
    PyDict.get "description"%string item = None.
Proof.
  destruct (add_item_merges new_store [("summary"%string, VStr "walk dog")]
              reachable_new_store)
    as (item & s' & Hadd & _ & _ & Hid & Hnone).
  - unfold PyDict.wf. refine (bool_decide_unpack _ _). exact I.
  - exists item, s'. split_and!; [exact Hadd | | by apply Hnone].
    apply Hid. unfold PyDict.keys. simpl.
    intros Hin%list_elem_of_singleton. discriminate Hin.
Defined.

(** X7.  [all_items] lists in insertion order: in a store built by calls
    with the fields [summary] and [description], a further [add_item] adds
    one entry, with the new id and the summary given, at the end of the list
    and leaves the entries before it as they were. *)
Theorem all_items_append (cs : list call) (summary description : value) :
  Forall spec_call cs ->
  let s := run cs new_store in
  exists l,
    all_items s = (Ok l, s) /\
    (all_items (add_item (spec_fields summary description) s).2).1
    = Ok (l ++ [list_entry (current_id s + 1) summary]).
Proof.
  intros Hcs s.
  pose proof (run_bounded cs new_store bounded_new_store) as Hb. fold s in Hb.
  destruct (records_ok_all_items_exact s) as (l & Hl & _).
  { apply run_records_ok; [done | apply records_ok_new_store]. }
  exists l. split; [done|].
  rewrite add_item_bounded by done. cbn [snd]. rewrite update_spec_fields.
  rewrite all_items_eq in Hl |- *. cbn [items].
  destruct (mapM project (PyDict.values (items s))) as [l0|] eqn:Hm; [|done].
  injection Hl as <-. rewrite PyDictFacts.values_app.
  set (item := [("id"%string, VInt (current_id s + 1));
                ("summary"%string, summary);
                ("description"%string, description)]).
  change (PyDict.values [(current_id s + 1, item)]) with [item : info].
  unfold PyDict.values in Hm |- *.
  by rewrite (mapM_snoc project _ l0 item
                (list_entry (current_id s + 1) summary) Hm).
Qed.

Lemma all_items_append_witness :
  (all_items
     (add_item (spec_fields (VStr "walk dog") (VStr "far"))
        (run [AddItem (spec_fields (VStr "buy milk") (VStr "2%"))]
             new_store)).2).1
  = Ok [list_entry 1 (VStr "buy milk"); list_entry 2 (VStr "walk dog")].
Proof.
  destruct (all_items_append
              [AddItem (spec_fields (VStr "buy milk") (VStr "2%"))]
              (VStr "walk dog") (VStr "far")) as (l & Hl & Hadd).
  - apply Forall_singleton. simpl. eauto.
  - injection Hl as <-. exact Hadd.
Defined.

(** X8.  One record without a [summary] breaks the list view: as long as
    the store holds such a record, [all_items] raises [KeyError] and
    returns no list, whatever the other records are. *)
Theorem all_items_missing_summary (s : ItemStore) :
  Exists (fun item => PyDict.get "summary"%string item = None)
         (PyDict.values (items s)) ->
  all_items s = (Raise KeyError, s).
Proof.
  intros Hex. rewrite all_items_eq.
  rewrite (mapM_None_2 project); [done|].
  eapply Exists_impl; [exact Hex|]. intros item Hitem. cbn beta in Hitem.
  unfold project. rewrite Hitem. by destruct (PyDict.get "id"%string item).
Qed.

Lemma all_items_missing_summary_witness :
  all_items
    (run [AddItem (spec_fields (VStr "buy milk") (VStr "2%"));
          AddItem [("description"%string, VStr "no title")]] new_store)
  = (Raise KeyError,
     run [AddItem (spec_fields (VStr "buy milk") (VStr "2%"));
          AddItem [("description"%string, VStr "no title")]] new_store).
Proof.
  apply all_items_missing_summary.
  apply Exists_cons_tl, Exists_cons_hd. reflexivity.
Defined.

(** * Further properties of the routes *)

Section routes_more.

Lemma unreliable_pass {A : Type} (app : ServerApp) (p r : float) (func : M A) :
  _failure_rate app = Some p -> PrimFloat.ltb r p = false ->
  unreliable app r func = func.
Proof. intros Happ Hr. unfold unreliable. by rewrite Happ, Hr. Qed.

Lemma unreliable_cases {A : Type} (app : ServerApp) (r : float) (func : M A)
    (s : ItemStore) :
  unreliable app r func s = func s \/
  unreliable app r func s = (Raise RuntimeError, s) \/
  unreliable app r func s = (Raise AttributeError, s).
Proof.
  unfold unreliable. destruct (_failure_rate app) as [p|]; [|by right; right].
  destruct (PrimFloat.ltb r p); [by right; left | by left].
Qed.

(** The handlers, as they run when the decorator lets them. *)

Lemma list_items_body s :
  (l <- all_items ;; ret (JsonResponse (VList (VDict <$> l)))) s =
  match mapM project (PyDict.values (items s)) with
  | Some l => (Ok (JsonResponse (VList (VDict <$> l))), s)
  | None => (Raise KeyError, s)
  end.
Proof.
  unfold bind. rewrite all_items_eq.
  by destruct (mapM project (PyDict.values (items s))).
Qed.

Lemma describe_item_body item_id s :
  except_KeyError
    (item <- find_item item_id ;; ret (JsonResponse (VDict item)))
    (abort 404) s =
  match PyDict.get item_id (items s) with
  | Some item => (Ok (JsonResponse (VDict item)), s)
  | None => (Raise (HTTPException 404), s)
  end.
Proof.
  unfold except_KeyError, bind. rewrite find_item_eq.
  by destruct (PyDict.get item_id (items s)).
Qed.

Lemma delete_item_body item_id s :
  (except_KeyError (delete_item item_id) (abort 404) ;;
   ret (TextResponse ("delete " +:+ pretty item_id))) s =
  match PyDict.remove item_id (items s) with
  | Some d => (Ok (TextResponse ("delete " +:+ pretty item_id)),
               mkItemStore d (current_id s))
  | None => (Raise (HTTPException 404), s)
  end.
Proof.
  unfold except_KeyError, bind. rewrite delete_item_eq.
  by destruct (PyDict.remove item_id (items s)).
Qed.

Lemma create_item_body form s :
  bounded s ->
  let body :=
    data <- next form ;;
    params <- json_loads data ;;
    summary <- getitem params "summary" ;;
    description <- getitem params "description" ;;
    item <- add_item (spec_fields summary description) ;;
    ret (JsonResponse (VDict item)) in
  (exists params rest summary description,
      form = Some (VDict params) :: rest /\
      PyDict.get "summary"%string params = Some summary /\
      PyDict.get "description"%string params = Some description /\
      body s = (Ok (JsonResponse (VDict
                      [("id"%string, VInt (current_id s + 1));
                       ("summary"%string, summary);
                       ("description"%string, description)])),
                (add_item (spec_fields summary description) s).2)) \/
  (exists e, body s = (Raise e, s) /\
     (e = StopIteration \/ e = JSONDecodeError \/ e = TypeError \/ e = KeyError)).
Proof.
  intros Hb body. subst body.
  unfold bind, next, json_loads, getitem, lift_KeyError, ret, raise.
  destruct form as [|[v|] rest]; cbv beta iota.
  - right. exists StopIteration. auto.
  - destruct v; cbv beta iota; try (right; exists TypeError; by auto).
    destruct (PyDict.get "summary"%string d) as [summary|] eqn:Hs;
      cbv beta iota; [|right; exists KeyError; by auto].
    destruct (PyDict.get "description"%string d) as [description|] eqn:Hd;
      cbv beta iota; [|right; exists KeyError; by auto].
    left. exists d, rest, summary, description. split_and!; try done.
    rewrite add_item_bounded by done. cbv beta iota zeta.
    by rewrite update_spec_fields.
  - right. exists JSONDecodeError. auto.
Qed.
End routes_more.

(** X9.  [GET /item/<id>], when no failure is injected: the answer is 200
    with the whole stored record when the id is a key of the store and 404
    when it is not; the store is as before in both cases. *)
Theorem describe_item_answer (app : ServerApp) (p r : float)
    (item_id : N) (s : ItemStore) :
  _failure_rate app = Some p ->
  PrimFloat.ltb r p = false ->
  let out := dispatch app r (GetItem item_id) s in
  out.2 = s /\
  (forall item, PyDict.get (Z.of_N item_id) (items s) = Some item ->
     out.1 = Ok (JsonResponse (VDict item)) /\ status_code out.1 = 200) /\
  (Z.of_N item_id ∉ PyDict.keys (items s) ->
     out.1 = Raise (HTTPException 404) /\ status_code out.1 = 404).
Proof.
  intros Happ Hr out. subst out. cbn [dispatch]. unfold Routes.describe_item.
  rewrite (unreliable_pass app p r) by done. rewrite describe_item_body.
  split_and!.
  - by destruct (PyDict.get (Z.of_N item_id) (items s)).
  - by intros item ->.
  - by intros ->%PyDictFacts.get_None.
Qed.

Lemma describe_item_answer_witness :
  (dispatch reliable_app 0.25%float (GetItem 7) new_store).1
  = Raise (HTTPException 404).
Proof.
  apply (describe_item_answer reliable_app 0%float 0.25%float 7 new_store
           eq_refl eq_refl).
  apply not_elem_of_nil.
Defined.

(** X10.  [DELETE /item/<id>], when no failure is injected: when the id is a
    key, the answer is 200 with the text [delete <id>], the record is
    removed and the other records and the counter are as before; when it is
    not, the answer is 404 and the store is as before. *)
Theorem delete_route_answer (app : ServerApp) (p r : float)
    (item_id : N) (s : ItemStore) :
  _failure_rate app = Some p ->
  PrimFloat.ltb r p = false ->
  PyDict.wf (items s) ->
  let out := dispatch app r (DeleteItemAt item_id) s in
  (Z.of_N item_id ∈ PyDict.keys (items s) ->
     out.1 = Ok (TextResponse ("delete " +:+ pretty (Z.of_N item_id))) /\
     status_code out.1 = 200 /\
     out.2 = (delete_item (Z.of_N item_id) s).2 /\
     (Z.of_N item_id ∉ PyDict.keys (items out.2)) /\
     current_id out.2 = current_id s /\
     forall k, k <> Z.of_N item_id ->
       PyDict.get k (items out.2) = PyDict.get k (items s)) /\
  (Z.of_N item_id ∉ PyDict.keys (items s) ->
     out = (Raise (HTTPException 404), s) /\ status_code out.1 = 404).
Proof.
  intros Happ Hr Hwf out. subst out. cbn [dispatch].
  unfold Routes.delete_item.
  rewrite (unreliable_pass app p r) by done. rewrite delete_item_body.
  rewrite delete_item_eq.
  destruct (PyDict.remove (Z.of_N item_id) (items s)) as [d|] eqn:Hrem.
  - split.
    + intros _. cbn [fst snd items current_id]. split_and!; try done.
      * by eapply PyDictFacts.remove_Some_absent.
      * intros k Hk. by eapply PyDictFacts.get_remove_ne.
    + intros Hout. apply PyDictFacts.remove_None in Hout. congruence.
  - apply PyDictFacts.remove_None in Hrem. by split.
Qed.

Lemma delete_route_answer_witness :
  dispatch reliable_app 0.25%float (DeleteItemAt 3) new_store
  = (Raise (HTTPException 404), new_store).
Proof.
  apply (delete_route_answer reliable_app 0%float 0.25%float 3 new_store
           eq_refl eq_refl).
  - apply NoDup_nil_2.
  - apply not_elem_of_nil.
Defined.

(** X11.  [POST /items] is all or nothing.  Either the first key of the
    form is a JSON object with a [summary] and a [description]: then the
    answer is 200 with the record made of the next id and of these two
    fields, which is appended to the store, every other field of the object
    (an [id] among them) being ignored.  Or the handler raises, the answer
    is 500 and the store, counter included, is as before. *)
Theorem create_item_all_or_nothing (app : ServerApp) (r : float)
    (form : list form_key) (s : ItemStore) :
  reachable s ->
  let out := dispatch app r (PostItems form) s in
  (exists params rest summary description,
      form = Some (VDict params) :: rest /\
      PyDict.get "summary"%string params = Some summary /\
      PyDict.get "description"%string params = Some description /\
      let item := [("id"%string, VInt (current_id s + 1));
                   ("summary"%string, summary);
                   ("description"%string, description)] in
      out = (Ok (JsonResponse (VDict item)),
             mkItemStore (items s ++ [(current_id s + 1, item)])
                         (current_id s + 1)) /\
      status_code out.1 = 200) \/
  (exists e, out = (Raise e, s) /\ status_code out.1 = 500).
Proof.
  intros Hb%reachable_bounded out. subst out. cbn [dispatch].
  unfold Routes.create_item.
  destruct (unreliable_cases app r
              (data <- next form ;;
               params <- json_loads data ;;
               summary <- getitem params "summary" ;;
               description <- getitem params "description" ;;
               item <- add_item (spec_fields summary description) ;;
               ret (JsonResponse (VDict item))) s) as [Hrun|[Hrun|Hrun]].
  - destruct (create_item_body form s Hb)
      as [(params & rest & summary & description & -> & Hs & Hd & Hbody)
         |(e & Hbody & He)].
    + left. exists params, rest, summary, description.
      unfold spec_fields in Hrun, Hbody. rewrite Hrun, Hbody.
      fold (spec_fields summary description).
      rewrite add_item_bounded by done. cbn zeta.
      rewrite update_spec_fields. by split_and!.
    + right. exists e. unfold spec_fields in Hrun, Hbody.
      rewrite Hrun, Hbody. split; [done|].
      by destruct He as [->|[->|[->| ->]]].
  - right. exists RuntimeError. unfold spec_fields in Hrun. by rewrite Hrun.
  - right. exists AttributeError. unfold spec_fields in Hrun. by rewrite Hrun.
Qed.

Lemma create_item_all_or_nothing_witness :
  dispatch reliable_app 0.25%float
    (PostItems [Some (VDict [("id"%string, VInt 99);
                             ("summary"%string, VStr "buy milk");
                             ("description"%string, VStr "2%")])])
    new_store
  = (Ok (JsonResponse (VDict [("id"%string, VInt 1);
                              ("summary"%string, VStr "buy milk");
                              ("description"%string, VStr "2%")])),
     mkItemStore [(1, [("id"%string, VInt 1);
                       ("summary"%string, VStr "buy milk");
                       ("description"%string, VStr "2%")])] 1).
Proof.
  destruct (create_item_all_or_nothing reliable_app 0.25%float
              [Some (VDict [("id"%string, VInt 99);
                            ("summary"%string, VStr "buy milk");
                            ("description"%string, VStr "2%")])]
              new_store reachable_new_store)
    as [(params & rest & summary & description & Hform & Hs & Hd & Hout & _)
       |(e & Hout & _)].
  - injection Hform as <- <-. injection Hs as <-. injection Hd as <-.
    exact Hout.
  - discriminate Hout.
Defined.

Section requests_more.

Lemma create_item_body_raises form s :
  let body :=
    data <- next form ;;
    params <- json_loads data ;;
    summary <- getitem params "summary" ;;
    description <- getitem params "description" ;;
    item <- add_item (spec_fields summary description) ;;
    ret (JsonResponse (VDict item)) in
  (exists resp, (body s).1 = Ok resp) \/
  (exists e, (body s).1 = Raise e /\ items (body s).2 = items s /\
     (e = StopIteration \/ e = JSONDecodeError \/ e = TypeError \/
      e = KeyError \/ e = AssertionError)).
Proof.
  intros body. subst body.
  unfold bind, next, json_loads, getitem, lift_KeyError, ret, raise.
  destruct form as [|[v|] rest]; cbv beta iota.
  - right. exists StopIteration. split_and!; try done; eauto 10.
  - destruct v; cbv beta iota; try solve [right; exists TypeError; split_and!; try done; eauto 10].
    destruct (PyDict.get "summary"%string d) as [summary|] eqn:Hs;
      cbv beta iota; [|right; exists KeyError; split_and!; try done; eauto 10].
    destruct (PyDict.get "description"%string d) as [description|] eqn:Hd;
      cbv beta iota; [|right; exists KeyError; split_and!; try done; eauto 10].
    rewrite add_item_eq. cbv beta iota zeta.
    destruct (PyDict.contains (current_id s + 1) (items s)).
    + right. exists AssertionError. split_and!; try done; eauto 10.
    + left. by eexists.
  - right. exists JSONDecodeError. split_and!; try done; eauto 10.
Qed.

(** The store after a request is the store before it, or the store after
    one call with the fields [summary] and [description]. *)
Lemma dispatch_exec app r req s :
  (dispatch app r req s).2 = s \/
  exists c, spec_call c /\ (dispatch app r req s).2 = exec c s.
Proof.
  destruct req as [|form|item_id|item_id]; cbn [dispatch].
  - left. unfold Routes.list_items.
    destruct (unreliable_cases app r
                (l <- all_items ;; ret (JsonResponse (VList (VDict <$> l)))) s)
      as [->|[->| ->]]; try done.
    rewrite list_items_body.
    by destruct (mapM project (PyDict.values (items s))).
  - unfold Routes.create_item.
    destruct (unreliable_cases app r
                (data <- next form ;;
                 params <- json_loads data ;;
                 summary <- getitem params "summary" ;;
                 description <- getitem params "description" ;;
                 item <- add_item (spec_fields summary description) ;;
                 ret (JsonResponse (VDict item))) s) as [Hrun|[Hrun|Hrun]];
      unfold spec_fields in Hrun; rewrite Hrun; [|by left..].
    fold (spec_fields).
    unfold bind, next, json_loads, getitem, lift_KeyError, ret, raise.
    destruct form as [|[v|] rest]; cbv beta iota; try by left.
    destruct v; cbv beta iota; try by left.
    destruct (PyDict.get "summary"%string d) as [summary|]; cbv beta iota;
      [|by left].
    destruct (PyDict.get "description"%string d) as [description|];
      cbv beta iota; [|by left].
    right. exists (AddItem (spec_fields summary description)).
    split; [simpl; eauto|]. simpl. unfold spec_fields.
    by destruct (add_item _ s) as [[item|e] s'].
  - left. unfold Routes.describe_item.
    destruct (unreliable_cases app r
                (except_KeyError
                   (item <- find_item (Z.of_N item_id) ;;
                    ret (JsonResponse (VDict item)))
                   (abort 404)) s) as [->|[->| ->]]; try done.
    rewrite describe_item_body.
    by destruct (PyDict.get (Z.of_N item_id) (items s)).
  - unfold Routes.delete_item.
    destruct (unreliable_cases app r
                (except_KeyError (delete_item (Z.of_N item_id)) (abort 404) ;;
                 ret (TextResponse ("delete " +:+ pretty (Z.of_N item_id)))) s)
      as [->|[->| ->]]; try by left.
    rewrite delete_item_body. right. exists (DeleteItem (Z.of_N item_id)).
    split; [done|]. simpl. rewrite delete_item_eq.
    by destruct (PyDict.remove (Z.of_N item_id) (items s)).
Qed.

Lemma serve_run app reqs s :
  exists cs, Forall spec_call cs /\ serve app reqs s = run cs s.
Proof.
  revert s. induction reqs as [|[r req] reqs IH]; intros s.
  - by exists [].
  - change (serve app ((r, req) :: reqs) s)
      with (serve app reqs (dispatch app r req s).2).
    destruct (dispatch_exec app r req s) as [->|(c & Hc & ->)].
    + apply IH.
    + destruct (IH (exec c s)) as (cs & Hcs & Hrun).
      exists (c :: cs). split; [by apply Forall_cons|by rewrite Hrun].
Qed.
End requests_more.

(** X12.  Over HTTP the store keeps its invariant and the list view never
    breaks: after any sequence of requests, whatever their forms and
    whichever of them failed, no key is held twice, every record carries its
    key as [id] and has a [summary], and [GET /items], when no failure is
    injected, answers 200 with one entry for each record, in the order of
    the store. *)
Theorem http_store_invariant (app : ServerApp) (reqs : list (float * request)) :
  let s := serve app reqs new_store in
  store_ok s /\
  records_ok s /\
  forall p r, _failure_rate app = Some p -> PrimFloat.ltb r p = false ->
    exists l,
      dispatch app r GetItems s = (Ok (JsonResponse (VList (VDict <$> l))), s) /\
      id_of <$> l = (Some ∘ VInt) <$> PyDict.keys (items s) /\
      Forall2 (fun kv entry => entry_of kv.1 kv.2 entry) (items s) l.
Proof.
  intros s. subst s.
  destruct (serve_run app reqs new_store) as (cs & Hcs & ->).
  pose proof (run_records_ok cs new_store Hcs records_ok_new_store) as Hrec.
  split_and!; [by apply records_ok_store_ok | done |].
  intros p r Happ Hr. cbn [dispatch]. unfold Routes.list_items.
  rewrite (unreliable_pass app p r) by done. rewrite list_items_body.
  destruct (records_ok_all_items_exact _ Hrec) as (l & Hl & Hids & Hall).
  rewrite all_items_eq in Hl.
  destruct (mapM project (PyDict.values (items (run cs new_store))))
    as [l0|]; [|done].
  injection Hl as <-. by exists l0.
Qed.

(** Closes the four parts of [dispatch_statuses] once the answer is known. *)
Ltac answered :=
  solve [ split_and!; cbn; intros;
          repeat match goal with
                 | H : _ \/ _ |- _ => destruct H
                 | H : exists _, _ |- _ => destruct H
                 end;
          try done; eauto 6 ].

(** X13.  What a request can do.  Every answer has status 200, 404 or 500.
    The status is 404 only for [GET] or [DELETE] on [/item/<id>] with an id
    that is no key of the store.  The [GET] requests leave the store as it
    is, and so does every request that is not answered with 200, as far as
    the item collection goes. *)
Theorem dispatch_statuses (app : ServerApp) (r : float) (req : request)
    (s : ItemStore) :
  let out := dispatch app r req s in
  (status_code out.1 = 200 \/ status_code out.1 = 404 \/
   status_code out.1 = 500) /\
  (status_code out.1 = 404 ->
   exists item_id, (req = GetItem item_id \/ req = DeleteItemAt item_id) /\
                   Z.of_N item_id ∉ PyDict.keys (items s)) /\
  (req = GetItems \/ (exists item_id, req = GetItem item_id) -> out.2 = s) /\
  (status_code out.1 <> 200 -> items out.2 = items s).
Proof.
  intros out. subst out.
  destruct req as [|form|item_id|item_id]; cbn [dispatch].
  - unfold Routes.list_items.
    destruct (unreliable_cases app r
                (l <- all_items ;; ret (JsonResponse (VList (VDict <$> l)))) s)
      as [Hrun|[Hrun|Hrun]]; rewrite Hrun; [|answered..].
    rewrite list_items_body.
    destruct (mapM project (PyDict.values (items s))); answered.
  - unfold Routes.create_item.
    destruct (unreliable_cases app r
                (data <- next form ;;
                 params <- json_loads data ;;
                 summary <- getitem params "summary" ;;
                 description <- getitem params "description" ;;
                 item <- add_item (spec_fields summary description) ;;
                 ret (JsonResponse (VDict item))) s) as [Hrun|[Hrun|Hrun]];
      unfold spec_fields in Hrun; rewrite Hrun; [|answered..].
    destruct (create_item_body_raises form s)
      as [(resp & Hresp)|(e & He & Hitems & Hcases)];
      unfold spec_fields in *.
    + rewrite Hresp. answered.
    + rewrite He.
      destruct Hcases as [->|[->|[->|[->| ->]]]]; answered.
  - unfold Routes.describe_item.
    destruct (unreliable_cases app r
                (except_KeyError
                   (item <- find_item (Z.of_N item_id) ;;
                    ret (JsonResponse (VDict item)))
                   (abort 404)) s) as [Hrun|[Hrun|Hrun]]; rewrite Hrun;
      [|answered..].
    rewrite describe_item_body.
    destruct (PyDict.get (Z.of_N item_id) (items s)) eqn:Hget; [answered|].
    apply PyDictFacts.get_None in Hget. answered.
  - unfold Routes.delete_item.
    destruct (unreliable_cases app r
                (except_KeyError (delete_item (Z.of_N item_id)) (abort 404) ;;
                 ret (TextResponse ("delete " +:+ pretty (Z.of_N item_id)))) s)
      as [Hrun|[Hrun|Hrun]]; rewrite Hrun; [|answered..].
    rewrite delete_item_body.
    destruct (PyDict.remove (Z.of_N item_id) (items s)) eqn:Hrem; [answered|].
    apply PyDictFacts.remove_None in Hrem. answered.
Qed.

Section configured.

Lemma dispatch_unset a r req s :
  _failure_rate a = None -> dispatch a r req s = (Raise AttributeError, s).
Proof.
  intros Ha. destruct req; cbn [dispatch];
    unfold Routes.list_items, Routes.create_item, Routes.describe_item,
      Routes.delete_item, unreliable; by rewrite Ha.
Qed.

Lemma dispatch_set a p r req s :
  _failure_rate a = Some p -> (dispatch a r req s).1 <> Raise AttributeError.
Proof.
  intros Ha. destruct req as [|form|item_id|item_id]; cbn [dispatch];
    unfold Routes.list_items, Routes.create_item, Routes.describe_item,
      Routes.delete_item, unreliable; rewrite Ha;
    destruct (PrimFloat.ltb r p); try done.
  - rewrite list_items_body.
    by destruct (mapM project (PyDict.values (items s))).
  - destruct (create_item_body_raises form s)
      as [(resp & Hresp)|(e & He & _ & Hcases)];
      unfold spec_fields in *.
    + by rewrite Hresp.
    + rewrite He. by destruct Hcases as [->|[->|[->|[->| ->]]]].
  - rewrite describe_item_body.
    by destruct (PyDict.get (Z.of_N item_id) (items s)).
  - rewrite delete_item_body.
    by destruct (PyDict.remove (Z.of_N item_id) (items s)).
Qed.

Lemma main_sets_rate a_v a port :
  main a_v = Ok (a, port) ->
  exists p, _failure_rate a = Some p /\ in_unit_interval p.
Proof.
  unfold main, get_args. cbn [args_failure_rate args_debug args_port].
  set (f := default DEFAULT_FAILURE_RATE (opt_failure_rate a_v)).
  destruct (PrimFloat.leb 0 f && PrimFloat.leb f 1)%bool eqn:Hf; [|done].
  apply range_check_units in Hf.
  destruct (opt_debug a_v); intros [= <- _]; by exists f.
Qed.
End configured.

(** X14.  The failure rate has to be set before a request is served.  On an
    application whose [failure_rate] was never assigned, as is the one the
    module creates, every request raises [AttributeError] in the decorator,
    is answered with 500 and leaves the store as it is.  The application
    that [main] starts has a rate, which is a number of [[0, 1]], and none
    of its requests raises [AttributeError]. *)
Theorem failure_rate_must_be_set :
  (forall a r req s,
      _failure_rate a = None ->
      dispatch a r req s = (Raise AttributeError, s) /\
      status_code (dispatch a r req s).1 = 500) /\
  (forall r req s, dispatch app r req s = (Raise AttributeError, s)) /\
  (forall a_v a port,
      main a_v = Ok (a, port) ->
      (exists p, _failure_rate a = Some p /\ in_unit_interval p) /\
      forall r req s, (dispatch a r req s).1 <> Raise AttributeError).
Proof.
  split_and!.
  - intros a r req s Ha. by rewrite (dispatch_unset a r req s Ha).
  - intros r req s. by apply dispatch_unset.
  - intros a_v a port Hmain.
    destruct (main_sets_rate a_v a port Hmain) as (p & Hp & Hin).
    split; [by exists p|]. intros r req s. by eapply dispatch_set.
Qed.

(** X15.  A round trip over HTTP, no failure injected: an item is posted,
    and the answer is its record, with the next id; [GET] on that id answers
    with the same record; [DELETE] on it answers [delete <id>] and gives
    back the collection as it was before the post; [GET] on it then answers
    404. *)
Theorem http_round_trip (app : ServerApp) (p r1 r2 r3 r4 : float)
    (params : info) (rest : list form_key) (summary description : value)
    (n : N) (s : ItemStore) :
  reachable s ->
  _failure_rate app = Some p ->
  PrimFloat.ltb r1 p = false -> PrimFloat.ltb r2 p = false ->
  PrimFloat.ltb r3 p = false -> PrimFloat.ltb r4 p = false ->
  PyDict.get "summary"%string params = Some summary ->
  PyDict.get "description"%string params = Some description ->
  Z.of_N n = current_id s + 1 ->
  let item := [("id"%string, VInt (current_id s + 1));
               ("summary"%string, summary);
               ("description"%string, description)] in
  let post := dispatch app r1 (PostItems (Some (VDict params) :: rest)) s in
  let del := dispatch app r3 (DeleteItemAt n) post.2 in
  post.1 = Ok (JsonResponse (VDict item)) /\
  dispatch app r2 (GetItem n) post.2 = (Ok (JsonResponse (VDict item)), post.2) /\
  del.1 = Ok (TextResponse ("delete " +:+ pretty (Z.of_N n))) /\
  items del.2 = items s /\
  dispatch app r4 (GetItem n) del.2 = (Raise (HTTPException 404), del.2).
Proof.
  intros Hreach Happ H1 H2 H3 H4 Hs Hd Hn item post del.
  pose proof (reachable_bounded s Hreach) as Hb.
  pose proof (bounded_fresh s Hb) as Hfresh.
  assert (post = (Ok (JsonResponse (VDict item)),
                  mkItemStore (items s ++ [(current_id s + 1, item)])
                              (current_id s + 1))) as Hpost.
  { subst post. cbn [dispatch]. unfold Routes.create_item.
    rewrite (unreliable_pass app p r1) by done.
    unfold bind, next, json_loads, getitem, lift_KeyError, ret, raise.
    cbv beta iota. rewrite Hs, Hd. cbv beta iota.
    fold (spec_fields summary description).
    rewrite add_item_bounded by done. cbv beta iota zeta.
    by rewrite update_spec_fields. }
  assert (del = (Ok (TextResponse ("delete " +:+ pretty (Z.of_N n))),
                 mkItemStore (items s) (current_id s + 1))) as Hdel.
  { subst del. rewrite Hpost. cbn [dispatch snd].
    unfold Routes.delete_item.
    rewrite (unreliable_pass app p r3) by done. rewrite delete_item_body.
    cbn [items current_id]. rewrite Hn. by rewrite remove_snoc. }
  rewrite Hpost, Hdel. cbn [fst snd dispatch items].
  unfold Routes.describe_item.
  rewrite (unreliable_pass app p r2), (unreliable_pass app p r4) by done.
  rewrite !describe_item_body. cbn [items]. rewrite Hn.
  split_and!; try done.
  - rewrite <- (PyDictFacts.set_absent (current_id s + 1) item) by done.
    by rewrite PyDictFacts.get_set_eq.
  - by apply PyDictFacts.get_None in Hfresh as ->.
Qed.

Lemma http_round_trip_witness :
  dispatch reliable_app 0.5%float (GetItem 1)
    (dispatch reliable_app 0.25%float
       (PostItems [Some (VDict (spec_fields (VStr "buy milk") (VStr "2%")))])
       new_store).2
  = (Ok (JsonResponse (VDict [("id"%string, VInt 1);
                              ("summary"%string, VStr "buy milk");
                              ("description"%string, VStr "2%")])),
     (dispatch reliable_app 0.25%float
        (PostItems [Some (VDict (spec_fields (VStr "buy milk") (VStr "2%")))])
        new_store).2).
Proof.
  apply (http_round_trip reliable_app 0%float 0.25%float 0.5%float
           0.25%float 0.5%float
           (spec_fields (VStr "buy milk") (VStr "2%")) []
           (VStr "buy milk") (VStr "2%") 1 new_store
           reachable_new_store eq_refl eq_refl eq_refl eq_refl eq_refl
           eq_refl eq_refl eq_refl).
Defined.

(** * Further properties of the threads *)

Section threads_more.
Import Concurrent ConcurrentFacts.

Lemma locks_ok_idle s programs : locks_ok (idle_config s programs).
Proof.
  split_and!; [|done..].
  intros t th Ht. unfold idle_config in Ht. cbn [threads] in Ht.
  rewrite list_lookup_fmap in Ht.
  destruct (programs !! t); [|done]. injection Ht as <-. by split.
Qed.

Lemma run_schedule_locks sched c :
  locks_ok c -> locks_ok (run_schedule sched c).
Proof.
  revert c. induction sched as [|t sched IH]; intros c Hc; [done|].
  cbn. by apply IH, locks_ok_step.
Qed.

(** A thread inside a section is never made to wait. *)
Lemma section_can_step t c th :
  in_id_section (at_pc th) \/ in_write_section (at_pc th) ->
  is_Some (step_thread t c th).
Proof.
  destruct th as [p td rs]. unfold step_thread. cbn [at_pc].
  destruct p; cbn; try tauto; intros _; try done.
  - by destruct (release t (id_lock c)).
  - by destruct (PyDict.contains item_id (items (store c))).
  - by destruct (release t (write_lock c)).
Qed.

(** A thread that cannot step has finished, or waits for a lock whose
    holder can step. *)
Lemma waiting_for_runnable t c th :
  locks_ok c ->
  threads c !! t = Some th ->
  step_thread t c th = None ->
  finished th \/
  exists o tho, threads c !! o = Some tho /\ is_Some (step_thread o c tho).
Proof.
  intros (_ & Hido & Hwo) Ht Hs. destruct th as [p td rs].
  unfold step_thread in Hs. cbn [at_pc todo results] in Hs.
  destruct p; simplify_eq/=; try by repeat case_match.
  - destruct td; [by left | done].
  - destruct (id_lock c) as [[o n]|] eqn:Hl; [|done].
    destruct (Hido o n eq_refl) as (tho & Ho & Hin).
    right. exists o, tho. split; [done|]. apply section_can_step. by left.
  - destruct (write_lock c) as [[o n]|] eqn:Hl; [|done].
    destruct (Hwo o n eq_refl) as (tho & Ho & Hin).
    right. exists o, tho. split; [done|]. apply section_can_step. by right.
Qed.
End threads_more.

(** X16.  The two locks cannot deadlock.  From any store and any calls,
    whatever the schedule: they are never held by the same thread; a lock
    is held only by a thread that is inside the section it guards, so both
    are free once every thread has returned from its calls, also after a
    failed assertion; and as long as some thread has not finished, some
    thread can take a step. *)
Theorem no_deadlock (s : ItemStore) (programs : list (list call))
    (sched : list nat) :
  let c := Concurrent.run_schedule sched (idle_config s programs) in
  (forall o n o' n',
      Concurrent.id_lock c = Some (o, n) ->
      Concurrent.write_lock c = Some (o', n') -> o <> o') /\
  ((forall t th, Concurrent.threads c !! t = Some th -> finished th) ->
   Concurrent.id_lock c = None /\ Concurrent.write_lock c = None) /\
  ((exists t th, Concurrent.threads c !! t = Some th /\ ~ finished th) ->
   exists t th, Concurrent.threads c !! t = Some th /\
                is_Some (Concurrent.step_thread t c th)).
Proof.
  intros c.
  assert (Concurrent.locks_ok c) as Hlocks
    by apply run_schedule_locks, locks_ok_idle.
  pose proof Hlocks as (Hsec & Hido & Hwo). split_and!.
  - intros o n o' n' Hi Hw ->.
    destruct (Hido _ _ Hi) as (th & Hth & Hin).
    destruct (Hwo _ _ Hw) as (th' & Hth' & Hin').
    assert (th' = th) as -> by congruence.
    by destruct (Concurrent.at_pc th).
  - intros Hfin. split.
    + destruct (Concurrent.id_lock c) as [[o n]|] eqn:Hl; [|done].
      destruct (Hido o n eq_refl) as (th & Hth & Hin).
      destruct (Hfin o th Hth) as [Hpc _]. by rewrite Hpc in Hin.
    + destruct (Concurrent.write_lock c) as [[o n]|] eqn:Hl; [|done].
      destruct (Hwo o n eq_refl) as (th & Hth & Hin).
      destruct (Hfin o th Hth) as [Hpc _]. by rewrite Hpc in Hin.
  - intros (t & th & Ht & Hnot).
    destruct (Concurrent.step_thread t c th) as [next_state|] eqn:Hs.
    + exists t, th. by rewrite Hs.
    + by destruct (waiting_for_runnable t c th Hlocks Ht Hs).
Qed.

Section alone.
Import Concurrent ConcurrentFacts.

Lemma solo_add_item_clash t s l kwargs rest rs :
  (t < length l)%nat ->
  PyDict.contains (current_id s + 1) (items s) = true ->
  run_schedule (replicate 9 t)
    (mkConfig s None None (<[t:=mkThread Idle (AddItem kwargs :: rest) rs]> l))
  = mkConfig (add_item kwargs s).2 None None
      (<[t:=mkThread Idle rest (rs ++ [answer_item (add_item kwargs s).1])]> l).
Proof.
  intros Ht Hclash. rewrite add_item_eq. cbn zeta. rewrite Hclash.
  cbn [replicate run_schedule foldl fst snd answer_item].
  repeat
    match goal with
    | |- context [step t (mkConfig ?s0 ?il ?wl ?ths)] =>
        erewrite (step_at t (mkConfig s0 il wl ths));
        [ | cbn [threads]; by rewrite list_lookup_insert_eq
          | unfold step_thread;
            cbn [at_pc todo results store id_lock write_lock entry acquire
                 release goto finish items current_id];
            rewrite ?decide_True, ?Hclash by done; reflexivity ];
        cbn [threads]; rewrite list_insert_insert_eq
    end.
  reflexivity.
Qed.
End alone.

(** X17.  Run on its own, from free locks, a thread's [add_item] does what
    the sequential [add_item] does, in ten steps, or in nine when the
    assertion fails: the store is the same, the thread gets the same record
    or the same exception, and both locks are free again afterwards, the
    write lock being released also when the assertion fails. *)
Theorem add_item_alone (t : nat) (s : ItemStore)
    (l : list Concurrent.thread) (kwargs : info) (rest : list call)
    (rs : list (result Concurrent.answer)) :
  (t < length l)%nat ->
  exists n : nat,
    (n <= 10)%nat /\
    Concurrent.run_schedule (replicate n t)
      (Concurrent.mkConfig s None None
         (<[t:=Concurrent.mkThread Concurrent.Idle (AddItem kwargs :: rest) rs]> l))
    = Concurrent.mkConfig (add_item kwargs s).2 None None
        (<[t:=Concurrent.mkThread Concurrent.Idle rest
                (rs ++ [Concurrent.answer_item (add_item kwargs s).1])]> l).
Proof.
  intros Ht.
  destruct (PyDict.contains (current_id s + 1) (items s)) eqn:Hc.
  - exists 9%nat. split; [lia|]. by apply solo_add_item_clash.
  - exists 10%nat. split; [lia|]. by apply ConcurrentFacts.solo_add_item.
Qed.

Lemma add_item_alone_witness :
  exists n : nat,
    (n <= 10)%nat /\
    Concurrent.run_schedule (replicate n 0%nat)
      (Concurrent.mkConfig new_store None None
         [Concurrent.mkThread Concurrent.Idle
            [AddItem (spec_fields (VStr "a") (VStr "b"))] []])
    = Concurrent.mkConfig
        (add_item (spec_fields (VStr "a") (VStr "b")) new_store).2 None None
        [Concurrent.mkThread Concurrent.Idle []
           [Concurrent.answer_item
              (add_item (spec_fields (VStr "a") (VStr "b")) new_store).1]].
Proof.
  apply (add_item_alone 0 new_store
           [Concurrent.mkThread Concurrent.Idle [] []]
           (spec_fields (VStr "a") (VStr "b")) [] []).
  simpl. lia.
Defined.

(** X19.  The ids under threads.  Whatever the interleaving of the threads,
    with calls made with the fields [summary] and [description]: no key is
    held twice and every record of the store carries its key as [id], so no
    two items share an id; a thread inside [new_id] holds the id lock and a
    thread between the assertion and the end of [add_item] holds the write
    lock, each held by one thread at a time; the ids that threads hold for
    records still to insert are pairwise distinct and are no keys of the
    store; no call raises [AssertionError], and every record handed back by
    [add_item] or [find_item] has an id; the reads of [find_item] and
    [all_items] never wait for a lock. *)
Theorem concurrent_ids (programs : list (list call)) (sched : list nat) :
  Forall (Forall spec_call) programs ->
  let c := Concurrent.run_schedule sched (Concurrent.init programs) in
  store_ok (Concurrent.store c) /\
  Concurrent.sections_locked c /\
  Concurrent.pending_fresh c /\
  Concurrent.answers_ok c /\
  (forall t th, Concurrent.threads c !! t = Some th ->
     Concurrent.reading (Concurrent.at_pc th) ->
     is_Some (Concurrent.step_thread t c th)).
Proof.
  intros Hspec c.
  destruct (ConcurrentFacts.run_schedule_inv sched (Concurrent.init programs))
    as [Hlocks Hinv];
    [apply ConcurrentFacts.locks_ok_init | by apply ConcurrentFacts.inv_init|].
  fold c in Hlocks, Hinv. destruct Hinv. split_and!.
  - by apply records_ok_store_ok.
  - by destruct Hlocks.
  - split; [done|]. intros t th i Ht Hi.
    by destruct (Concurrent.inv_pending _ _ (inv_threads t th Ht) i Hi).
  - intros t th Ht. by destruct (inv_threads t th Ht).
  - intros t th _ Hread. destruct th as [p td rs].
    unfold Concurrent.step_thread. destruct p; try done; cbn.
    by destruct (PyDict.get _ _).
Qed.

Lemma concurrent_ids_witness :
  store_ok (Concurrent.store (Concurrent.step 2 Concurrent.racy_config)) /\
  Concurrent.sections_locked (Concurrent.step 2 Concurrent.racy_config).
Proof.
  destruct (concurrent_ids Concurrent.racy_programs
              [0; 0; 0; 0; 0; 0; 0; 0; 0; 1; 2; 2]%nat) as (Hok & Hsec & _).
  - repeat (apply Forall_cons; split; [|]); try apply Forall_nil_2;
      simpl; eauto.
  - split; [exact Hok | exact Hsec].
Defined.

Section shapes.
Import PyDict PyDictFacts.

Lemma exec_full_records c s :
  spec_call c -> Forall full_record (items s) ->
  Forall full_record (items (exec c s)).
Proof.
  intros Hc Hrec. destruct c as [kwargs|item_id|item_id|]; simpl.
  - destruct Hc as (summary & description & ->). rewrite add_item_eq.
    cbn zeta. rewrite update_spec_fields.
    destruct (contains (current_id s + 1) (items s)) eqn:Hin; [done|].
    apply contains_false in Hin. cbn [snd items].
    rewrite set_absent by done. apply Forall_app. split; [done|].
    apply Forall_singleton. by exists summary, description.
  - rewrite delete_item_eq.
    destruct (remove item_id (items s)) as [d|] eqn:Hr; [|done].
    cbn [snd items].
    apply remove_Some_sublist, sublist_subseteq in Hr.
    rewrite Forall_forall in Hrec |- *. auto.
  - by rewrite find_item_state.
  - by rewrite all_items_state.
Qed.

Lemma run_full_records cs s :
  Forall spec_call cs -> Forall full_record (items s) ->
  Forall full_record (items (run cs s)).
Proof.
  intros Hcs. revert s. induction Hcs as [|c cs Hc Hcs IH]; intros s Hs; [done|].
  simpl. by apply IH, exec_full_records.
Qed.
End shapes.

(** X18.  Every record created over HTTP is a full item: after any sequence
    of requests, each record of the store has exactly the fields [id],
    [summary] and [description], its [id] being the key it is stored under;
    and [GET /item/<id>], when it answers 200, answers with such a record
    whose [id] is the id asked for. *)
Theorem http_records_full (app : ServerApp) (reqs : list (float * request))
    (r : float) (item_id : N) :
  let s := serve app reqs new_store in
  Forall full_record (items s) /\
  forall body,
    (dispatch app r (GetItem item_id) s).1 = Ok (JsonResponse body) ->
    exists summary description,
      body = VDict [("id"%string, VInt (Z.of_N item_id));
                    ("summary"%string, summary);
                    ("description"%string, description)].
Proof.
  intros s. subst s.
  destruct (serve_run app reqs new_store) as (cs & Hcs & ->).
  pose proof (run_full_records cs new_store Hcs (Forall_nil_2 _)) as Hfull.
  split; [done|]. intros body. cbn [dispatch]. unfold Routes.describe_item.
  destruct (unreliable_cases app r
              (except_KeyError
                 (item <- find_item (Z.of_N item_id) ;;
                  ret (JsonResponse (VDict item)))
                 (abort 404)) (run cs new_store)) as [Hrun|[Hrun|Hrun]];
    rewrite Hrun; [|done..].
  rewrite describe_item_body.
  destruct (PyDict.get (Z.of_N item_id) (items (run cs new_store)))
    as [item|] eqn:Hget; [|done].
  intros [= <-]. apply PyDictFacts.get_Some_elem in Hget.
  rewrite Forall_forall in Hfull.
  destruct (Hfull _ Hget) as (summary & description & Hitem).
  simpl in Hitem. subst item. by exists summary, description.
Qed.
